(** * Music-revenue aggregation core: encoder and HE adapter

    A shallow embedding of [core/data_encoder.py] (class [MusicDataEncoder])
    and [core/he_engine.py] (class [HEEngine]), with the properties their
    specification states about them.

    Modelling conventions.
    - Python numbers ([int] and [float]) are rationals [Q]; numeric
      equality is [==] ([Qeq]), as Python's [==] on numbers.  The two
      classes are embedded in exact arithmetic, which decides their order,
      range, shape and error properties.  The round trip of the
      normalisation depends on the rounding of binary64: it is stated for
      the functions of [Binary64], where every operation is rounded.
    - A value of a loosely typed record ([Dict[str, Any]]) is a [pyval]:
      a number or a string.
    - A raised exception is the [Raise] result of the [result] monad.
    - A dict whose iteration order the code relies on ([genre_mapping],
      [period_mapping]) is an association list in insertion order; the other
      dicts are [gmap]s.
    - The pi-heaan library is not part of the repository: it is the record
      [heaan.lib] of the operations the engine calls. *)

From Stdlib Require Import QArith Qminmax Lqa Qround Qabs Qpower.
From stdpp Require Import gmap strings list.

Local Open Scope string_scope.
Local Open Scope list_scope.

(** ** Python preliminaries *)

Inductive exn : Set := ValueError | TypeError | IndexError.

Inductive result (A : Type) : Type :=
  | Ok (a : A)
  | Raise (e : exn).
Arguments Ok {A} a.
Arguments Raise {A} e.

#[global] Instance result_ret : MRet result := @Ok.
#[global] Instance result_bind : MBind result := λ A B f m,
  match m with Ok a => f a | Raise e => Raise e end.
#[global] Instance result_fmap : FMap result := λ A B f m,
  match m with Ok a => Ok (f a) | Raise e => Raise e end.

Inductive pyval : Type :=
  | VNum (x : Q)
  | VStr (s : string).

Module Py.

(** [max(a, b)]: the first argument unless the second is strictly larger. *)
Definition max2 (a b : Q) : Q :=
  match (b ?= a)%Q with Gt => b | _ => a end.

(** [min(a, b)]: the first argument unless the second is strictly smaller. *)
Definition min2 (a b : Q) : Q :=
  match (b ?= a)%Q with Lt => b | _ => a end.

(** [max(l)] on a list: [ValueError] on the empty list, otherwise the first
    of the largest items. *)
Definition max_list (l : list Q) : result Q :=
  match l with
  | [] => Raise ValueError
  | x :: xs => Ok (foldl max2 x xs)
  end.

(** [l.index(x)]: the first position holding a value equal to [x]. *)
Fixpoint index (x : Q) (l : list Q) : result nat :=
  match l with
  | [] => Raise ValueError
  | y :: ys => if Qeq_bool y x then Ok 0%nat else S <$> index x ys
  end.

(** [l[i]] *)
Definition getitem {A} (l : list A) (i : nat) : result A :=
  match l !! i with
  | Some a => Ok a
  | None => Raise IndexError
  end.

(** [l[i] = x] *)
Definition setitem {A} (l : list A) (i : nat) (x : A) : result (list A) :=
  if decide (i < length l)%nat then Ok (<[i:=x]> l) else Raise IndexError.

(** [range(n)], empty when [n] is not positive. *)
Definition range (n : Z) : list nat := seq 0 (Z.to_nat n).

(** A [for] loop threading an accumulator through a body that may raise. *)
Fixpoint for_each {A S} (body : S → A → result S) (s : S) (l : list A)
  : result S :=
  match l with
  | [] => Ok s
  | a :: l' => s' ← body s a; for_each body s' l'
  end.

(** Lookup in a dict kept in insertion order. *)
Fixpoint assoc {V} (k : string) (d : list (string * V)) : option V :=
  match d with
  | [] => None
  | (k', v) :: d' => if String.eqb k k' then Some v else assoc k d'
  end.

(** [key in d] and [d[key]] for a string-keyed dict and an arbitrary key:
    a number is never equal to a string key. *)
Definition dict_get {V} (d : list (string * V)) (key : pyval) : option V :=
  match key with
  | VStr s => assoc s d
  | VNum _ => None
  end.

(** The conversion the comparison operators apply to their operands: a
    string compared with a number raises [TypeError]. *)
Definition as_number (v : pyval) : result Q :=
  match v with
  | VNum x => Ok x
  | VStr _ => Raise TypeError
  end.

(** [enumerate(l)] *)
Definition enumerate {A} (l : list A) : list (nat * A) := imap pair l.

(** Complex numbers: [complex(x)] and the attribute [.real]. *)
Record complex : Type := Complex { real : Q; imag : Q }.

Definition complex_of (x : Q) : complex := Complex x 0.

(** [float(v)]: a number is kept; a string is parsed by [parse], and
    [ValueError] is raised when it is not the text of a number. *)
Definition float (parse : string → option Q) (v : pyval) : result Q :=
  match v with
  | VNum x => Ok x
  | VStr s => match parse s with Some x => Ok x | None => Raise ValueError end
  end.

End Py.

(** ** [MusicDataEncoder] *)

Module MusicDataEncoder.

Definition genre_mapping : list (string * nat) :=
  [("Pop", 0); ("Hip-Hop", 1); ("Rock", 2); ("Electronic", 3);
   ("R&B", 4); ("Country", 5); ("Jazz", 6); ("Classical", 7)]%nat.

Definition period_mapping : list (string * nat) :=
  [("2024-Q1", 0); ("2024-Q2", 1); ("2024-Q3", 2); ("2024-Q4", 3);
   ("2023-Q1", 4); ("2023-Q2", 5); ("2023-Q3", 6); ("2023-Q4", 7)]%nat.

Definition normalization_ranges : gmap string (Q * Q) :=
  list_to_map
    [("revenue", (0, 100000000)); ("song_count", (1, 50));
     ("danceability", (0, 1)); ("energy", (0, 1)); ("valence", (0, 1));
     ("tempo", (60, 200)); ("acousticness", (0, 1));
     ("instrumentalness", (0, 1)); ("liveness", (0, 1));
     ("speechiness", (0, 1)); ("loudness", (-60, 0));
     ("duration_ms", (30000, 600000))]%Q.

Definition normalize_value (value : Q) (field_name : string) : Q :=
  match normalization_ranges !! field_name with
  | None => value
  | Some (min_val, max_val) =>
      let value := Py.max2 min_val (Py.min2 max_val value) in
      ((value - min_val) / (max_val - min_val))%Q
  end.

Definition denormalize_value (normalized_value : Q) (field_name : string) : Q :=
  match normalization_ranges !! field_name with
  | None => normalized_value
  | Some (min_val, max_val) =>
      (normalized_value * (max_val - min_val) + min_val)%Q
  end.

(** The body shared by [encode_genre] and [encode_period], which differ
    only in the mapping: [[0.0] * len(mapping)], then the slot of a known
    label set to [1.0]. *)
Definition one_hot (mapping : list (string * nat)) (label : pyval)
  : result (list Q) :=
  let vector := replicate (length mapping) 0%Q in
  match Py.dict_get mapping label with
  | Some i => Py.setitem vector i 1%Q
  | None => Ok vector
  end.

Definition encode_genre (genre : pyval) : result (list Q) :=
  one_hot genre_mapping genre.

Definition encode_period (period : pyval) : result (list Q) :=
  one_hot period_mapping period.

(** The loop [for genre, index in mapping.items(): if index == max_index:
    return genre], with the value returned when it falls through. *)
Fixpoint first_with_index (items : list (string * nat)) (max_index : nat)
    (fallthrough : string) : string :=
  match items with
  | [] => fallthrough
  | (name, index) :: items' =>
      if (index =? max_index)%nat then name
      else first_with_index items' max_index fallthrough
  end.

Definition decode_genre (one_hot_vector : list Q) : result string :=
  m ← Py.max_list one_hot_vector;
  max_index ← Py.index m one_hot_vector;
  Ok (first_with_index genre_mapping max_index "Unknown").

Definition numeric_fields : list string :=
  ["revenue"; "song_count"; "danceability"; "energy"; "valence"; "tempo";
   "acousticness"; "instrumentalness"; "liveness"; "speechiness";
   "loudness"; "duration_ms"].

Record metadata : Type := {
  artist_id : pyval;
  upload_time : string;
  original_genre : pyval;
  original_period : pyval
}.

(** The dict built by [encode_music_data]: list-valued entries under the
    field names, and the cleartext block under ['metadata']. *)
Record encoded : Type := {
  entries : gmap string (list Q);
  meta : metadata
}.

(** [music_data.get(key, '')] *)
Definition get_or_empty (music_data : gmap string pyval) (key : string) : pyval :=
  default (VStr "") (music_data !! key).

(** One turn of the loop over [numeric_fields].  Every such field has a
    declared range, so [normalize_value] compares the value with the
    bounds, which raises on a string. *)
Definition encode_numeric (music_data : gmap string pyval)
    (encoded_data : gmap string (list Q)) (field : string)
  : result (gmap string (list Q)) :=
  match music_data !! field with
  | None => Ok encoded_data
  | Some v =>
      x ← Py.as_number v;
      Ok (<[field := [normalize_value x field]]> encoded_data)
  end.

Definition encode_labelled (music_data : gmap string pyval) (key : string)
    (enc : pyval → result (list Q)) (encoded_data : gmap string (list Q))
  : result (gmap string (list Q)) :=
  match music_data !! key with
  | None => Ok encoded_data
  | Some label => vector ← enc label; Ok (<[key := vector]> encoded_data)
  end.

(** [now] is the value of [datetime.now().isoformat()] at the call. *)
Definition encode_music_data (now : string) (music_data : gmap string pyval)
  : result encoded :=
  d ← Py.for_each (encode_numeric music_data) ∅ numeric_fields;
  d ← encode_labelled music_data "genre" encode_genre d;
  d ← encode_labelled music_data "period" encode_period d;
  Ok {| entries := d;
        meta := {| artist_id := get_or_empty music_data "artist_id";
                   upload_time := now;
                   original_genre := get_or_empty music_data "genre";
                   original_period := get_or_empty music_data "period" |} |}.

Definition feature_order : list string :=
  ["danceability"; "energy"; "valence"; "tempo"; "acousticness";
   "instrumentalness"; "liveness"; "speechiness"; "loudness"; "duration_ms"].

(** One turn of the loop over [feature_order]. *)
Definition add_feature (encoded_data : gmap string (list Q))
    (feature_vector : list Q) (feature : string) : list Q :=
  match encoded_data !! feature with
  | Some values => feature_vector ++ values
  | None => feature_vector ++ [0%Q]
  end.

Definition add_one_hot (encoded_data : gmap string (list Q)) (key : string)
    (mapping : list (string * nat)) (feature_vector : list Q) : list Q :=
  match encoded_data !! key with
  | Some vector => feature_vector ++ vector
  | None => feature_vector ++ replicate (length mapping) 0%Q
  end.

Definition create_feature_vector (now : string)
    (music_data : gmap string pyval) : result (list Q) :=
  encoded_data ← encode_music_data now music_data;
  let d := entries encoded_data in
  let feature_vector := foldl (add_feature d) [] feature_order in
  let feature_vector := add_one_hot d "genre" genre_mapping feature_vector in
  let feature_vector := add_one_hot d "period" period_mapping feature_vector in
  Ok feature_vector.

(** One turn of the loop over [numeric_fields] in [decode_music_data]: a
    field is decoded when it is present with a non-empty list. *)
Definition decode_numeric (encoded_data : gmap string (list Q))
    (decoded_data : gmap string pyval) (field : string) : gmap string pyval :=
  match encoded_data !! field with
  | Some (normalized_value :: _) =>
      <[field := VNum (denormalize_value normalized_value field)]> decoded_data
  | _ => decoded_data
  end.

(** The loop [for period, index in self.period_mapping.items(): if index ==
    max_index: decoded_data['period'] = period; break]. *)
Fixpoint set_period (items : list (string * nat)) (max_index : nat)
    (decoded_data : gmap string pyval) : gmap string pyval :=
  match items with
  | [] => decoded_data
  | (period, index) :: items' =>
      if (index =? max_index)%nat then <["period" := VStr period]> decoded_data
      else set_period items' max_index decoded_data
  end.

(** [decoded_data.update(encoded_data['metadata'])] *)
Definition update_metadata (m : metadata) (decoded_data : gmap string pyval)
  : gmap string pyval :=
  <["original_period" := original_period m]>
    (<["original_genre" := original_genre m]>
       (<["upload_time" := VStr (upload_time m)]>
          (<["artist_id" := artist_id m]> decoded_data))).

(** The argument [encoded_data] is given by its list-valued entries and by
    its ['metadata'] entry, if it has one. *)
Definition decode_music_data (encoded_data : gmap string (list Q))
    (metadata_entry : option metadata) : result (gmap string pyval) :=
  let d := foldl (decode_numeric encoded_data) ∅ numeric_fields in
  d ← match encoded_data !! "genre" with
      | Some vector =>
          genre ← decode_genre vector; Ok (<["genre" := VStr genre]> d)
      | None => Ok d
      end;
  d ← match encoded_data !! "period" with
      | Some vector =>
          m ← Py.max_list vector;
          max_index ← Py.index m vector;
          Ok (set_period period_mapping max_index d)
      | None => Ok d
      end;
  Ok (match metadata_entry with
      | Some m => update_metadata m d
      | None => d
      end).

(** [if key not in batch_encoded: batch_encoded[key] = []], then
    [batch_encoded[key].append(value)]. *)
Definition batch_append (key : string) (value : list Q)
    (batch_encoded : gmap string (list (list Q))) : gmap string (list (list Q)) :=
  <[key := default [] (batch_encoded !! key) ++ [value]]> batch_encoded.

(** One turn of the loop of [batch_encode].  The state is the number of
    records handled so far and the dict built so far; [clock n] is the value
    of [datetime.now().isoformat()] at the call for the [n]-th record.  The
    ['metadata'] entry of the encoding is skipped. *)
Definition batch_record (clock : nat → string)
    (state : nat * gmap string (list (list Q))) (music_data : gmap string pyval)
  : result (nat * gmap string (list (list Q))) :=
  encoded ← encode_music_data (clock state.1) music_data;
  Ok (S state.1, map_fold batch_append state.2 (entries encoded)).

Definition batch_encode (clock : nat → string)
    (music_data_list : list (gmap string pyval))
  : result (gmap string (list (list Q))) :=
  snd <$> Py.for_each (batch_record clock) (0%nat, ∅) music_data_list.

End MusicDataEncoder.

(** ** Binary64 rounding

    Python computes [normalize_value] and [denormalize_value] in binary64:
    every arithmetic operation returns the exact result rounded to the
    nearest representable number, ties to even.  [round] is that rounding
    on the rationals, for results below the overflow threshold: 53
    significant bits down to the exponent -1022, and multiples of 2^-1074
    below.  The arithmetic of Python's integers is exact; on integers below
    2^53 in magnitude, which [round] leaves unchanged, it gives the same
    results. *)

Module Binary64.

(** Rounding to the nearest integer, ties to even. *)
Definition round_half_even (y : Q) : Z :=
  let f := Qfloor y in
  match (y - inject_Z f ?= 1 # 2)%Q with
  | Lt => f
  | Gt => (f + 1)%Z
  | Eq => if Z.even f then f else (f + 1)%Z
  end.

(** The exponent [e] of a number other than 0:
    [2 ^ e <= |x| < 2 ^ (e + 1)]. *)
Definition exponent (x : Q) : Z :=
  let a := Qabs x in
  if Qle_bool 1 a then Z.log2 (Qfloor a)
  else (- Z.log2_up (Qceiling (/ a)))%Z.

(** The exponent of the spacing of the representable numbers around [x]. *)
Definition ulp_exponent (x : Q) : Z := (Z.max (exponent x) (-1022) - 52)%Z.

Definition round (x : Q) : Q :=
  (inject_Z (round_half_even (x / 2 ^ ulp_exponent x)) * 2 ^ ulp_exponent x)%Q.

(** 2^-53 *)
Definition unit_roundoff : Q := Eval cbv in (1 # 2 ^ 53)%Q.

(** 2^-1075, half the smallest positive number. *)
Definition half_subnormal : Q := Eval cbv in (1 # 2 ^ 1075)%Q.

(** 2^-1074, the smallest positive number. *)
Definition smallest : Q := Eval cbv in (1 # 2 ^ 1074)%Q.

(** 2^53: every integer below it is representable. *)
Definition exact_integers : Q := Eval cbv in inject_Z (2 ^ 53).

(** [normalize_value], each operation rounded. *)
Definition normalize_value (value : Q) (field_name : string) : Q :=
  match MusicDataEncoder.normalization_ranges !! field_name with
  | None => value
  | Some (min_val, max_val) =>
      let value := Py.max2 min_val (Py.min2 max_val value) in
      round (round (value - min_val) / round (max_val - min_val))%Q
  end.

(** [denormalize_value], each operation rounded. *)
Definition denormalize_value (normalized_value : Q) (field_name : string) : Q :=
  match MusicDataEncoder.normalization_ranges !! field_name with
  | None => normalized_value
  | Some (min_val, max_val) =>
      round (round (normalized_value * round (max_val - min_val)) + min_val)%Q
  end.

(** The normalisation inside [HEEngine.encrypt_revenue_data], each
    operation rounded. *)
Definition normalized_value (field : string) (value : Q) : Q :=
  if String.eqb field "revenue" then Py.min2 (round (value / 100000000)%Q) 1%Q
  else if String.eqb field "tempo" then round (round (value - 60) / 140)%Q
  else value.

(** The tolerance of the round trip on a range: 2^-49 of the larger
    magnitude of its bounds. *)
Definition tolerance (min_val max_val : Q) : Q :=
  ((1 # 562949953421312) * Qmax (Qabs min_val) (Qabs max_val))%Q.

(** The tolerance on a normalised value: 2^-49. *)
Definition unit_tolerance : Q := (1 # 562949953421312)%Q.

End Binary64.

(** ** The pi-heaan library, as far as the engine uses it *)

Module heaan.

(** [encrypt msg] is the ciphertext [Encryptor.encrypt] writes for the
    message [msg] under the engine's public key; [decrypt c msg] is the
    content [Decryptor.decrypt] leaves in the message object [msg]; the
    remaining fields are the results the evaluator writes into a fresh
    ciphertext. *)
Record lib : Type := {
  Ciphertext : Type;
  encrypt : list Py.complex → Ciphertext;
  decrypt : Ciphertext → list Py.complex → list Py.complex;
  add : Ciphertext → Ciphertext → Ciphertext;
  mult : Ciphertext → Ciphertext → Ciphertext;
  mult_by_const : Ciphertext → Py.complex → Ciphertext;
  add_const : Ciphertext → Py.complex → Ciphertext
}.

(** What the engine relies on when it reads a decrypted message: the
    message object keeps the number of slots it was created with. *)
Definition keeps_slots (L : lib) : Prop :=
  ∀ c msg, length (decrypt L c msg) = length msg.

(** A library without approximation error: decrypting a ciphertext into a
    message object of the right size gives back the encrypted message. *)
Definition exact (L : lib) : Prop :=
  ∀ m msg, length m = length msg → decrypt L (encrypt L m) msg = m.

End heaan.

(** ** [HEEngine] *)

Module HEEngine.
Section engine.

Context (L : heaan.lib) (log_slots : nat).
Context (parse_float : string → option Q).

Abbreviation Ciphertext := (heaan.Ciphertext L).

Definition num_slots : nat := 2 ^ log_slots.

(** [heaan.Message(self.log_slots)]: a message of [2 ^ log_slots] slots. *)
Definition Message : list Py.complex :=
  replicate num_slots (Py.Complex 0 0).

Definition encrypt_data (data : list Q) : result Ciphertext :=
  if decide (num_slots < length data)%nat then Raise ValueError
  else
    let padded_data := data ++ replicate (num_slots - length data) 0%Q in
    message ← Py.for_each
      (λ message '(i, value), Py.setitem message i (Py.complex_of value))
      Message (Py.enumerate padded_data);
    Ok (heaan.encrypt L message).

(** [size if size else self.num_slots] *)
Definition actual_size (size : option Z) : Z :=
  match size with
  | Some n => if decide (n = 0)%Z then Z.of_nat num_slots else n
  | None => Z.of_nat num_slots
  end.

Definition decrypt_data (ciphertext : Ciphertext) (size : option Z)
  : result (list Q) :=
  let message := heaan.decrypt L ciphertext Message in
  Py.for_each
    (λ result i, c ← Py.getitem message i; Ok (result ++ [Py.real c]))
    [] (Py.range (actual_size size)).

Definition add_encrypted (ctxt1 ctxt2 : Ciphertext) : Ciphertext :=
  heaan.add L ctxt1 ctxt2.

Definition multiply_encrypted (ctxt1 ctxt2 : Ciphertext) : Ciphertext :=
  heaan.mult L ctxt1 ctxt2.

Definition multiply_by_constant (ctxt : Ciphertext) (constant : Q) : Ciphertext :=
  heaan.mult_by_const L ctxt (Py.complex_of constant).

Definition add_constant (ctxt : Ciphertext) (constant : Q) : Ciphertext :=
  heaan.add_const L ctxt (Py.complex_of constant).

Definition calculate_encrypted_sum (encrypted_list : list Ciphertext)
  : result Ciphertext :=
  match encrypted_list with
  | [] => Raise ValueError
  | _ =>
      result ← Py.getitem encrypted_list 0;
      Py.for_each
        (λ result i, c ← Py.getitem encrypted_list i; Ok (add_encrypted result c))
        result (seq 1 (length encrypted_list - 1))
  end.

Definition calculate_encrypted_average (encrypted_list : list Ciphertext)
  : result Ciphertext :=
  total_sum ← calculate_encrypted_sum encrypted_list;
  let count := inject_Z (Z.of_nat (length encrypted_list)) in
  Ok (multiply_by_constant total_sum (1 / count)).

(** The normalisation [encrypt_revenue_data] applies to the value of a
    field before encrypting it. *)
Definition normalized_value (field : string) (value : Q) : Q :=
  if String.eqb field "revenue" then Py.min2 (value / 100000000) 1
  else if String.eqb field "tempo" then ((value - 60) / 140)%Q
  else value.

Definition numeric_fields : list string :=
  ["revenue"; "danceability"; "energy"; "valence"; "tempo"].

Definition encrypt_field (revenue_data : gmap string pyval)
    (encrypted_data : gmap string Ciphertext) (field : string)
  : result (gmap string Ciphertext) :=
  match revenue_data !! field with
  | None => Ok encrypted_data
  | Some v =>
      value ← Py.float parse_float v;
      c ← encrypt_data [normalized_value field value];
      Ok (<[field := c]> encrypted_data)
  end.

Definition encrypt_revenue_data (revenue_data : gmap string pyval)
  : result (gmap string Ciphertext) :=
  Py.for_each (encrypt_field revenue_data) ∅ numeric_fields.

End engine.
End HEEngine.

(** ** A transparent instance of the library

    Ciphertexts are the messages themselves and the evaluator works slot by
    slot.  It carries no secrecy; it shows that the interface [heaan.lib] is
    inhabited and lets the engine be run on concrete inputs. *)

Module plain.

Definition cadd (a b : Py.complex) : Py.complex :=
  Py.Complex (Py.real a + Py.real b) (Py.imag a + Py.imag b).

Definition cmul (a b : Py.complex) : Py.complex :=
  Py.Complex (Py.real a * Py.real b - Py.imag a * Py.imag b)
             (Py.real a * Py.imag b + Py.imag a * Py.real b).

Definition decrypt (c msg : list Py.complex) : list Py.complex :=
  take (length msg) c ++ drop (length c) msg.

Definition scheme : heaan.lib := {|
  heaan.Ciphertext := list Py.complex;
  heaan.encrypt := λ msg, msg;
  heaan.decrypt := decrypt;
  heaan.add := zip_with cadd;
  heaan.mult := zip_with cmul;
  heaan.mult_by_const := λ c k, (λ x, cmul x k) <$> c;
  heaan.add_const := λ c k, (λ x, cadd x k) <$> c
|}.

End plain.

(** ** Vocabulary of the statements *)

(** The position [decode_genre] looks up: slot [i] holds a largest value of
    [v] and every earlier slot holds a strictly smaller one. *)
Definition first_maximum (v : list Q) (i : nat) : Prop :=
  ∃ m, v !! i = Some m
       ∧ (∀ j x, v !! j = Some x → (x <= m)%Q)
       ∧ (∀ j x, (j < i)%nat → v !! j = Some x → (x < m)%Q).

(** The entry [encode_music_data] stores for a numeric field of a record:
    the normalised value, in a one-item list, when the record holds a number
    under that field. *)
Definition numeric_entry (music_data : gmap string pyval) (field : string)
  : option (list Q) :=
  match music_data !! field with
  | Some (VNum x) => Some [MusicDataEncoder.normalize_value x field]
  | _ => None
  end.

(** The slot of the feature vector for a scalar feature. *)
Definition scalar_slot (music_data : gmap string pyval) (feature : string) : Q :=
  match music_data !! feature with
  | Some (VNum x) => MusicDataEncoder.normalize_value x feature
  | _ => 0%Q
  end.

(** The numeric fields a record holds are numbers. *)
Definition numbers_in_numeric_fields (music_data : gmap string pyval) : Prop :=
  ∀ f x, f ∈ MusicDataEncoder.numeric_fields →
         music_data !! f = Some x → ∃ q, x = VNum q.

(** A number that [float] returns unchanged: up to 2^53 in magnitude every
    integer is a binary64 number, so the conversion neither rounds nor
    overflows. *)
Definition exactly_convertible (q : Q) : Prop :=
  (- Binary64.exact_integers <= q)%Q
  ∧ (q <= Binary64.exact_integers)%Q.

(** The record of the encoder's own test run. *)
Definition test_music_data : gmap string pyval :=
  list_to_map
    [("artist_id", VStr "artist_001"); ("genre", VStr "Pop");
     ("period", VStr "2024-Q1"); ("revenue", VNum 5000000);
     ("song_count", VNum 3); ("danceability", VNum 0.8);
     ("energy", VNum 0.7); ("valence", VNum 0.9); ("tempo", VNum 120);
     ("acousticness", VNum 0.1); ("instrumentalness", VNum 0);
     ("liveness", VNum 0.2); ("speechiness", VNum 0.05);
     ("loudness", VNum (-5)); ("duration_ms", VNum 210000)].

(** A record whose genre and period are not in the enumerations. *)
Definition unlisted_music_data : gmap string pyval :=
  list_to_map
    [("artist_id", VStr "artist_007"); ("genre", VStr "Metal");
     ("period", VStr "2025-Q1"); ("tempo", VNum 250)].

(** An encoding whose genre and period vectors have nine slots, the largest
    value in the last one. *)
Definition overlong_encoded_data : gmap string (list Q) :=
  list_to_map
    [("genre", [0; 0; 0; 0; 0; 0; 0; 0; 1]%Q);
     ("period", [0; 0; 0; 0; 0; 0; 0; 0; 1]%Q)].

(** The sparse record below with a revenue, a song count and an artist. *)
Definition sparse_music_data_with_revenue : gmap string pyval :=
  list_to_map
    [("artist_id", VStr "artist_042"); ("genre", VStr "Rock");
     ("tempo", VNum 120); ("revenue", VNum 7500000); ("song_count", VNum 12)].

(** A record with a string where a number is expected. *)
Definition ill_typed_music_data : gmap string pyval :=
  list_to_map [("genre", VStr "Jazz"); ("revenue", VStr "a lot")].

(** A record with most optional fields left out. *)
Definition sparse_music_data : gmap string pyval :=
  list_to_map [("genre", VStr "Rock"); ("tempo", VNum 120)].

(** * Properties *)

(** ** The [result] monad and the Python primitives *)

Section py_facts.

Lemma Ok_inj {A} (a b : A) : Ok a = Ok b → a = b.
Proof. congruence. Qed.

Lemma max2_cases (a b : Q) :
  ((a < b)%Q ∧ Py.max2 a b = b) ∨ ((b <= a)%Q ∧ Py.max2 a b = a).
Proof.
  unfold Py.max2. destruct (Qcompare_spec b a) as [H|H|H].
  - right. split; [rewrite H; apply Qle_refl | done].
  - right. split; [by apply Qlt_le_weak | done].
  - left. done.
Qed.

Lemma min2_cases (a b : Q) :
  ((b < a)%Q ∧ Py.min2 a b = b) ∨ ((a <= b)%Q ∧ Py.min2 a b = a).
Proof.
  unfold Py.min2. destruct (Qcompare_spec b a) as [H|H|H].
  - right. split; [rewrite H; apply Qle_refl | done].
  - left. done.
  - right. split; [by apply Qlt_le_weak | done].
Qed.

(** Clipping into a non-empty interval. *)
Lemma clip_cases (lo hi v : Q) :
  (lo <= hi)%Q →
  let c := Py.max2 lo (Py.min2 hi v) in
  ((v < lo)%Q ∧ (c == lo)%Q) ∨ ((lo <= v <= hi)%Q ∧ (c == v)%Q)
  ∨ ((hi < v)%Q ∧ (c == hi)%Q).
Proof.
  intros Hle c. subst c.
  destruct (min2_cases hi v) as [[H1 ->]|[H1 ->]].
  - destruct (max2_cases lo v) as [[H2 ->]|[H2 ->]].
    + right; left. split; [lra | reflexivity].
    + destruct (Qlt_le_dec v lo); [left | right; left]; split; lra.
  - destruct (max2_cases lo hi) as [[H2 ->]|[H2 ->]];
      (destruct (Qlt_le_dec hi v); [right; right | right; left]; split; lra).
Qed.

End py_facts.

(** ** Normalisation *)

Section normalisation.
Import MusicDataEncoder.

(** Every declared range has a positive width, so the division in
    [normalize_value] never has a zero denominator. *)
Lemma normalization_ranges_width (f : string) (lo hi : Q) :
  normalization_ranges !! f = Some (lo, hi) → (lo < hi)%Q.
Proof.
  intros H. apply elem_of_list_to_map_2 in H.
  repeat (apply elem_of_cons in H as [H|H]; [by inversion H |]).
  by apply elem_of_nil in H.
Qed.

Lemma normalize_value_declared (f : string) (lo hi v : Q) :
  normalization_ranges !! f = Some (lo, hi) →
  normalize_value v f = ((Py.max2 lo (Py.min2 hi v) - lo) / (hi - lo))%Q.
Proof. intros H. unfold normalize_value. by rewrite H. Qed.

Lemma denormalize_value_declared (f : string) (lo hi n : Q) :
  normalization_ranges !! f = Some (lo, hi) →
  denormalize_value n f = (n * (hi - lo) + lo)%Q.
Proof. intros H. unfold denormalize_value. by rewrite H. Qed.

(** The linear map and its inverse cancel on any interval of positive
    width. *)
Lemma linear_roundtrip (lo hi c : Q) :
  (lo < hi)%Q → ((c - lo) / (hi - lo) * (hi - lo) + lo == c)%Q.
Proof. intros H. field. lra. Qed.

Lemma linear_roundtrip_inv (lo hi n : Q) :
  (lo < hi)%Q → ((n * (hi - lo) + lo - lo) / (hi - lo) == n)%Q.
Proof. intros H. field. lra. Qed.

Lemma linear_unit_interval (lo hi c : Q) :
  (lo < hi)%Q → (lo <= c <= hi)%Q → (0 <= (c - lo) / (hi - lo) <= 1)%Q.
Proof.
  intros H [H1 H2]. split.
  - apply Qle_shift_div_l; lra.
  - apply Qle_shift_div_r; lra.
Qed.

(** The bounds of a declared range are integers of moderate size, at least
    one apart, and neither exceeds twice the width in magnitude. *)
Lemma declared_range_integers (f : string) (lo hi : Q) :
  normalization_ranges !! f = Some (lo, hi) →
  ∃ zl zh : Z,
    lo = inject_Z zl ∧ hi = inject_Z zh
    ∧ (-1000000 ≤ zl)%Z ∧ (zl + 1 ≤ zh)%Z ∧ (zh ≤ 100000000)%Z
    ∧ (zl ≤ zh + zh)%Z ∧ (zl + zl ≤ zh)%Z.
Proof.
  intros H. apply elem_of_list_to_map_2 in H.
  repeat (apply elem_of_cons in H as [H|H];
          [inversion H; subst; eexists _, _;
           split; [reflexivity |]; split; [reflexivity |]; lia |]).
  by apply elem_of_nil in H.
Qed.

End normalisation.

(** ** Rounding to binary64 *)

Section binary64_rounding.
Import Binary64.
Local Open Scope Q_scope.

Lemma round_half_even_floor (y : Q) :
  (Qfloor y ≤ round_half_even y ≤ Qfloor y + 1)%Z.
Proof.
  unfold round_half_even.
  destruct (y - inject_Z (Qfloor y) ?= 1 # 2); [destruct (Z.even _) | |]; lia.
Qed.

(** The nearest integer is within a half. *)
Lemma round_half_even_error (y : Q) :
  - (1 # 2) <= inject_Z (round_half_even y) - y
  ∧ inject_Z (round_half_even y) - y <= 1 # 2.
Proof.
  pose proof (Qfloor_le y) as H1. pose proof (Qlt_floor y) as H2.
  rewrite inject_Z_plus in H2. change (inject_Z 1) with 1 in H2.
  unfold round_half_even.
  destruct (Qcompare_spec (y - inject_Z (Qfloor y)) (1 # 2)) as [H|H|H].
  - destruct (Z.even _).
    + split; lra.
    + rewrite inject_Z_plus. change (inject_Z 1) with 1. split; lra.
  - split; lra.
  - rewrite inject_Z_plus. change (inject_Z 1) with 1. split; lra.
Qed.

(** It never crosses an integer. *)
Lemma round_half_even_ge (y : Q) (k : Z) :
  inject_Z k <= y → (k ≤ round_half_even y)%Z.
Proof.
  intros H. pose proof (round_half_even_floor y).
  assert (k ≤ Qfloor y)%Z; [| lia].
  pose proof (Qlt_floor y) as H2.
  assert (H3 : inject_Z k < inject_Z (Qfloor y + 1)) by lra.
  rewrite <- Zlt_Qlt in H3. lia.
Qed.

Lemma round_half_even_le (y : Q) (k : Z) :
  y <= inject_Z k → (round_half_even y ≤ k)%Z.
Proof.
  intros H. pose proof (round_half_even_floor y) as Hf.
  pose proof (Qfloor_le y) as H1.
  assert (H3 : inject_Z (Qfloor y) <= inject_Z k) by lra.
  rewrite <- Zle_Qle in H3.
  destruct (Z.eq_dec (Qfloor y) k) as [E|E]; [| lia].
  unfold round_half_even. rewrite E.
  assert (Hy : y == inject_Z k) by (rewrite E in H1; lra).
  destruct (Qcompare_spec (y - inject_Z k) (1 # 2)) as [H4|H4|H4]; lra || lia.
Qed.

Lemma round_half_even_comp (x y : Q) :
  x == y → round_half_even x = round_half_even y.
Proof.
  intros E. unfold round_half_even.
  rewrite (Qfloor_comp x y E).
  assert (Hc : (x - inject_Z (Qfloor y) ?= 1 # 2)
               = (y - inject_Z (Qfloor y) ?= 1 # 2))
    by (apply Qcompare_comp; [rewrite E; reflexivity | reflexivity]).
  rewrite Hc. reflexivity.
Qed.

Lemma exponent_comp (x y : Q) : x == y → exponent x = exponent y.
Proof.
  intros E. unfold exponent.
  assert (Ea : Qabs x == Qabs y) by (rewrite E; reflexivity).
  rewrite (Qleb_comp 1 1 (Qeq_refl 1) _ _ Ea).
  rewrite (Qfloor_comp _ _ Ea).
  assert (Ei : / Qabs x == / Qabs y) by (rewrite Ea; reflexivity).
  rewrite (Qceiling_comp _ _ Ei). reflexivity.
Qed.

Lemma round_comp (x y : Q) : x == y → round x == round y.
Proof.
  intros E. unfold round, ulp_exponent.
  rewrite (exponent_comp x y E).
  assert (Eq : x / 2 ^ (Z.max (exponent y) (-1022) - 52)
               == y / 2 ^ (Z.max (exponent y) (-1022) - 52))
    by (rewrite E; reflexivity).
  rewrite (round_half_even_comp _ _ Eq). reflexivity.
Qed.

Lemma pow2_pos (e : Z) : 0 < 2 ^ e.
Proof. apply Qpower_0_lt. reflexivity. Qed.

Lemma pow2_Z (e : Z) : (0 ≤ e)%Z → inject_Z (2 ^ e) == 2 ^ e.
Proof. intros H. apply (Zpower_Qpower 2 e H). Qed.

(** The exponent of a number other than 0 is not too large. *)
Lemma exponent_lower (x : Q) : ¬ x == 0 → 2 ^ exponent x <= Qabs x.
Proof.
  intros Hx. unfold exponent.
  assert (Ha : 0 < Qabs x).
  { destruct (Qlt_le_dec 0 (Qabs x)) as [H|H]; [exact H |].
    exfalso. apply Hx. apply Qabs_Qle_condition in H. lra. }
  set (a := Qabs x) in *.
  destruct (Qle_bool 1 a) eqn:Hb.
  - apply Qle_bool_iff in Hb.
    assert (Hf : (1 ≤ Qfloor a)%Z)
      by (change 1%Z with (Qfloor 1); apply Qfloor_resp_le; exact Hb).
    destruct (Z.log2_spec (Qfloor a)) as [H1 _]; [lia |].
    rewrite <- pow2_Z by apply Z.log2_nonneg.
    apply Qle_trans with (y := inject_Z (Qfloor a));
      [rewrite <- Zle_Qle; exact H1 | apply Qfloor_le].
  - assert (Hlt : a < 1).
    { destruct (Qlt_le_dec a 1) as [H|H]; [exact H |].
      apply Qle_bool_iff in H. congruence. }
    assert (Hinv : 1 < / a).
    { apply Qlt_shift_inv_l; [exact Ha | lra]. }
    pose proof (Qle_ceiling (/ a)) as Hc.
    assert (Hc1 : (1 < Qceiling (/ a))%Z).
    { rewrite Zlt_Qlt. change (inject_Z 1) with 1. lra. }
    destruct (Z.log2_up_spec (Qceiling (/ a)) Hc1) as [_ Hk].
    rewrite Zle_Qle in Hk.
    pose proof (Z.log2_up_nonneg (Qceiling (/ a))) as Hk0.
    rewrite pow2_Z in Hk by exact Hk0.
    set (k := Z.log2_up (Qceiling (/ a))) in *.
    rewrite Qpower_opp.
    pose proof (pow2_pos k) as Hp.
    set (P := 2 ^ k) in *.
    assert (H1 : 1 <= a * P).
    { assert (E : a * / a == 1) by (field; lra).
      rewrite <- E. apply Qmult_le_l; [exact Ha | lra]. }
    assert (E : / P == 1 / P) by (field; lra).
    rewrite E. apply Qle_shift_div_r; [exact Hp | exact H1].
Qed.

Lemma round_scaled (x : Q) :
  round x - x
  == (inject_Z (round_half_even (x / 2 ^ ulp_exponent x))
      - x / 2 ^ ulp_exponent x) * 2 ^ ulp_exponent x.
Proof.
  unfold round. pose proof (pow2_pos (ulp_exponent x)). field. lra.
Qed.

(** The error of [round] is at most half the spacing. *)
Lemma round_error_ulp (x : Q) :
  - (2 ^ ulp_exponent x * (1 # 2)) <= round x - x
  ∧ round x - x <= 2 ^ ulp_exponent x * (1 # 2).
Proof.
  rewrite round_scaled.
  destruct (round_half_even_error (x / 2 ^ ulp_exponent x)) as [H1 H2].
  pose proof (pow2_pos (ulp_exponent x)) as Hp.
  set (d := inject_Z (round_half_even (x / 2 ^ ulp_exponent x))
            - x / 2 ^ ulp_exponent x) in *.
  set (P := 2 ^ ulp_exponent x) in *.
  split.
  - assert (H : (- (1 # 2)) * P <= d * P)
      by (apply Qmult_le_compat_r; lra).
    lra.
  - assert (H : d * P <= (1 # 2) * P)
      by (apply Qmult_le_compat_r; lra).
    lra.
Qed.

Lemma round_zero (x : Q) : x == 0 → round x == 0.
Proof. intros E. rewrite (round_comp x 0 E). reflexivity. Qed.

Lemma round_error (x b : Q) :
  - b <= x → x <= b →
  - (unit_roundoff * b + half_subnormal) <= round x - x
  ∧ round x - x <= unit_roundoff * b + half_subnormal.
Proof.
  intros Hb1 Hb2.
  destruct (Qeq_dec x 0) as [E|Hx].
  { rewrite (round_zero x E), E.
    unfold unit_roundoff, half_subnormal. split; lra. }
  pose proof (exponent_lower x Hx) as Hlow.
  assert (Habs : Qabs x <= b) by (apply Qabs_Qle_condition; split; lra).
  destruct (round_error_ulp x) as [H1 H2].
  unfold ulp_exponent in H1, H2.
  destruct (Z.max_spec (exponent x) (-1022)) as [[Hlt E]|[Hle E]];
    rewrite E in H1, H2.
  - assert (Ep : 2 ^ (-1022 - 52) * (1 # 2) == half_subnormal)
      by reflexivity.
    rewrite Ep in H1, H2.
    unfold unit_roundoff, half_subnormal in *. split; lra.
  - assert (Ep : 2 ^ (exponent x - 52)
                 == 2 ^ exponent x * (1 # 4503599627370496)).
    { unfold Z.sub. rewrite Qpower_plus by discriminate. reflexivity. }
    rewrite Ep in H1, H2.
    set (P := 2 ^ exponent x) in *.
    unfold unit_roundoff, half_subnormal. split; lra.
Qed.

(** Below 2^53 in magnitude the spacing is at most 1. *)
Lemma ulp_exponent_small (x : Q) :
  - exact_integers < x → x < exact_integers → (ulp_exponent x ≤ 0)%Z.
Proof.
  intros H1 H2. unfold ulp_exponent.
  destruct (Qeq_dec x 0) as [E|Hx].
  { rewrite (exponent_comp x 0 E). vm_compute. discriminate. }
  pose proof (exponent_lower x Hx) as Hlow.
  assert (Habs : Qabs x < 2 ^ 53).
  { change (2 ^ 53) with exact_integers.
    apply Qabs_case; intros; lra. }
  assert (He : (exponent x < 53)%Z).
  { apply (Qpower_lt_compat_l_inv 2); [lra | reflexivity]. }
  lia.
Qed.

(** An integer is a multiple of a spacing that is at most 1. *)
Lemma integer_on_grid (z q : Z) :
  (q ≤ 0)%Z → inject_Z z == inject_Z (z * 2 ^ (- q)) * 2 ^ q.
Proof.
  intros Hq. rewrite inject_Z_mult, pow2_Z by lia.
  rewrite Qpower_opp. pose proof (pow2_pos q). field. lra.
Qed.

Lemma scaled_by_grid (x : Q) (q : Z) :
  (q ≤ 0)%Z → x / 2 ^ q == x * inject_Z (2 ^ (- q)).
Proof.
  intros Hq. rewrite pow2_Z by lia. rewrite Qpower_opp.
  pose proof (pow2_pos q). field. lra.
Qed.

Lemma round_integer_le (x : Q) (z : Z) :
  - exact_integers < x → x < exact_integers →
  inject_Z z <= x → inject_Z z <= round x.
Proof.
  intros H1 H2 Hz.
  pose proof (ulp_exponent_small x H1 H2) as Hq.
  rewrite (integer_on_grid z _ Hq). unfold round.
  apply Qmult_le_compat_r; [| apply Qlt_le_weak, pow2_pos].
  rewrite <- Zle_Qle. apply round_half_even_ge.
  rewrite (scaled_by_grid x _ Hq), inject_Z_mult.
  apply Qmult_le_compat_r; [exact Hz |].
  rewrite pow2_Z by lia. apply Qlt_le_weak, pow2_pos.
Qed.

Lemma round_integer_ge (x : Q) (z : Z) :
  - exact_integers < x → x < exact_integers →
  x <= inject_Z z → round x <= inject_Z z.
Proof.
  intros H1 H2 Hz.
  pose proof (ulp_exponent_small x H1 H2) as Hq.
  rewrite (integer_on_grid z _ Hq). unfold round.
  apply Qmult_le_compat_r; [| apply Qlt_le_weak, pow2_pos].
  rewrite <- Zle_Qle. apply round_half_even_le.
  rewrite (scaled_by_grid x _ Hq), inject_Z_mult.
  apply Qmult_le_compat_r; [exact Hz |].
  rewrite pow2_Z by lia. apply Qlt_le_weak, pow2_pos.
Qed.

End binary64_rounding.

#[local] Instance round_proper : Proper (Qeq ==> Qeq) Binary64.round.
Proof. intros x y E. by apply round_comp. Qed.

(** ** The round trip in binary64 *)

Section rounded_normalisation.
Import MusicDataEncoder.
Abbreviation rnd := Binary64.round.

(** On results of magnitude between 1 and 2^50 the error is at most 2^-52
    of the bound. *)
Lemma rnd_error_unit (x b : Q) :
  (1 <= b)%Q → (b <= 1125899906842624)%Q → (- b <= x)%Q → (x <= b)%Q →
  (- ((1 # 4503599627370496) * b) <= rnd x - x)%Q
  ∧ (rnd x - x <= (1 # 4503599627370496) * b)%Q.
Proof.
  intros H1 H2 H3 H4.
  destruct (round_error x b H3 H4) as [Ha Hb].
  unfold Binary64.unit_roundoff, Binary64.half_subnormal in *.
  split; lra.
Qed.

(** Among results of moderate size rounding never crosses an integer. *)
Lemma rnd_above (x : Q) (z : Z) :
  (-2147483648 <= x)%Q → (x <= 2147483648)%Q →
  (inject_Z z <= x)%Q → (inject_Z z <= rnd x)%Q.
Proof.
  intros H1 H2 Hz.
  apply round_integer_le; [| | exact Hz];
    unfold Binary64.exact_integers; lra.
Qed.

Lemma rnd_below (x : Q) (z : Z) :
  (-2147483648 <= x)%Q → (x <= 2147483648)%Q →
  (x <= inject_Z z)%Q → (rnd x <= inject_Z z)%Q.
Proof.
  intros H1 H2 Hz.
  apply round_integer_ge; [| | exact Hz];
    unfold Binary64.exact_integers; lra.
Qed.

(** An integer of moderate size is left unchanged. *)
Lemma rnd_exact_integer (x : Q) (z : Z) :
  (x == inject_Z z)%Q → (-1073741824 ≤ z ≤ 1073741824)%Z → (rnd x == x)%Q.
Proof.
  intros E [Hz1 Hz2].
  rewrite Zle_Qle in Hz1, Hz2.
  change (inject_Z (-1073741824)) with (-1073741824)%Q in Hz1.
  change (inject_Z 1073741824) with 1073741824%Q in Hz2.
  assert (Ha : (inject_Z z <= rnd x)%Q) by (apply rnd_above; lra).
  assert (Hb : (rnd x <= inject_Z z)%Q) by (apply rnd_below; lra).
  lra.
Qed.

(** *** On one range

    [lo] is the lower bound and [w] the width of a range whose bounds and
    width rounding leaves unchanged. *)

Section on_range.
Context (lo w : Q) (zl zw : Z).
Hypothesis Ilo : (lo == inject_Z zl)%Q.
Hypothesis Iw : (w == inject_Z zw)%Q.
Hypothesis Hw1 : (1 <= w)%Q.
Hypothesis Hw2 : (w <= 1073741824)%Q.
Hypothesis Hlo1 : (-1073741824 <= lo)%Q.
Hypothesis Hlo2 : (lo + w <= 1073741824)%Q.
Hypothesis E0 : (rnd 0 == 0)%Q.
Hypothesis E1 : (rnd 1 == 1)%Q.
Hypothesis Ew : (rnd w == w)%Q.
Hypothesis Elo : (rnd lo == lo)%Q.
Hypothesis Ehi : (rnd (lo + w) == lo + w)%Q.

Lemma rounded_offset (t : Q) :
  (0 <= t <= w)%Q → (0 <= rnd t <= w)%Q.
Proof.
  intros [H1 H2].
  assert (Ha : (inject_Z 0 <= rnd t)%Q)
    by (apply rnd_above; [lra | lra | exact H1]).
  assert (Hb : (rnd t <= inject_Z zw)%Q)
    by (apply rnd_below; [lra | lra | rewrite <- Iw; exact H2]).
  change (inject_Z 0) with 0%Q in Ha. split; lra.
Qed.

Lemma quotient_unit (a : Q) :
  (0 <= a <= w)%Q → (0 <= a / w <= 1)%Q.
Proof.
  intros [H1 H2]. split.
  - apply Qle_shift_div_l; lra.
  - apply Qle_shift_div_r; lra.
Qed.

Lemma normalize_unit (t : Q) :
  (0 <= t <= w)%Q → (0 <= rnd (rnd t / w) <= 1)%Q.
Proof.
  intros Ht.
  destruct (quotient_unit _ (rounded_offset t Ht)) as [H1 H2].
  assert (Ha : (inject_Z 0 <= rnd (rnd t / w))%Q)
    by (apply rnd_above; [lra | lra | exact H1]).
  assert (Hb : (rnd (rnd t / w) <= inject_Z 1)%Q)
    by (apply rnd_below; [lra | lra | exact H2]).
  change (inject_Z 0) with 0%Q in Ha. change (inject_Z 1) with 1%Q in Hb.
  split; lra.
Qed.

(** The rounded quotient is within 2^-51 of the exact one. *)
Lemma normalize_linear (t : Q) :
  (0 <= t <= w)%Q →
  (- (1 # 2251799813685248) <= rnd (rnd t / w) - t / w)%Q
  ∧ (rnd (rnd t / w) - t / w <= (1 # 2251799813685248))%Q.
Proof.
  intros Ht.
  destruct (rounded_offset t Ht) as [Ha1 Ha2].
  destruct (quotient_unit _ (conj Ha1 Ha2)) as [Hq1 Hq2].
  destruct Ht as [Ht1 Ht2].
  destruct (rnd_error_unit t w) as [Ha3 Ha4]; [lra .. |].
  destruct (rnd_error_unit (rnd t / w) 1) as [Hn1 Hn2]; [lra .. |].
  set (a := rnd t) in *. set (n := rnd (a / w)) in *.
  assert (Hq : (a / w * w == a)%Q) by (field; lra).
  assert (Ht' : (t / w * w == t)%Q) by (field; lra).
  set (q := (a / w)%Q) in *. set (r := (t / w)%Q) in *.
  assert (Hqr1 : (q - r <= (1 # 4503599627370496))%Q).
  { apply Qmult_le_r with (z := w); [lra |]. lra. }
  assert (Hqr2 : (- (1 # 4503599627370496) <= q - r)%Q).
  { apply Qmult_le_r with (z := w); [lra |]. lra. }
  split; lra.
Qed.

Lemma rounded_product (n : Q) :
  (0 <= n <= 1)%Q → (0 <= rnd (n * w) <= w)%Q.
Proof.
  intros [H1 H2].
  assert (H3 : (0 <= n * w)%Q) by nra.
  assert (H4 : (n * w <= w)%Q) by nra.
  by apply rounded_offset.
Qed.

Lemma denormalize_in_range (n : Q) :
  (0 <= n <= 1)%Q →
  (lo <= rnd (rnd (n * w) + lo) <= lo + w)%Q.
Proof.
  intros Hn. destruct (rounded_product n Hn) as [H1 H2].
  assert (Ha : (inject_Z zl <= rnd (rnd (n * w) + lo))%Q)
    by (apply rnd_above; [lra | lra | rewrite <- Ilo; lra]).
  assert (Hb : (rnd (rnd (n * w) + lo) <= inject_Z (zl + zw))%Q)
    by (apply rnd_below; [lra | lra |
        rewrite inject_Z_plus, <- Ilo, <- Iw; lra]).
  rewrite inject_Z_plus in Hb. split; lra.
Qed.

(** Normalising an offset [t] of the range and denormalising the result
    gives [t + lo] up to 2^-49 of any bound [m] of the magnitudes of the
    two bounds of the range. *)
Lemma roundtrip_tolerance (t m : Q) :
  (0 <= t <= w)%Q → (- m <= lo)%Q → (lo + w <= m)%Q → (m <= 1073741824)%Q →
  (- ((1 # 562949953421312) * m)
   <= rnd (rnd (rnd (rnd t / w) * w) + lo) - (t + lo))%Q
  ∧ (rnd (rnd (rnd (rnd t / w) * w) + lo) - (t + lo)
     <= (1 # 562949953421312) * m)%Q.
Proof.
  intros Ht Hm1 Hm2 Hm3.
  destruct (rounded_offset t Ht) as [Ha1 Ha2].
  destruct (quotient_unit _ (conj Ha1 Ha2)) as [Hq1 Hq2].
  destruct (normalize_unit t Ht) as [Hn1 Hn2].
  destruct (rounded_product _ (conj Hn1 Hn2)) as [Hp1 Hp2].
  destruct (rnd_error_unit t w) as [Ha3 Ha4]; [lra .. |].
  destruct (rnd_error_unit (rnd t / w) 1) as [Hn3 Hn4]; [lra .. |].
  set (a := rnd t) in *. set (n := rnd (a / w)) in *.
  assert (Hnw : (0 <= n * w <= w)%Q) by (split; nra).
  destruct (rnd_error_unit (n * w) w) as [Hp3 Hp4]; [lra .. |].
  set (p := rnd (n * w)) in *.
  destruct (rnd_error_unit (p + lo) (2 * m)) as [Hd1 Hd2]; [lra .. |].
  set (d := rnd (p + lo)) in *.
  assert (Hq : (a / w * w == a)%Q) by (field; lra).
  set (q := (a / w)%Q) in *.
  assert (Hnq1 : (n * w - q * w <= (1 # 4503599627370496) * w)%Q).
  { assert (H : ((n - q) * w <= (1 # 4503599627370496) * w)%Q)
      by (apply Qmult_le_compat_r; lra).
    lra. }
  assert (Hnq2 : (- ((1 # 4503599627370496) * w) <= n * w - q * w)%Q).
  { assert (H : ((- (1 # 4503599627370496)) * w <= (n - q) * w)%Q)
      by (apply Qmult_le_compat_r; lra).
    lra. }
  split; lra.
Qed.

(** Denormalising a value of [0, 1] and normalising the result gives the
    value back up to 2^-49, when the width is at least half the magnitude
    of each bound. *)
Lemma inverse_tolerance (n : Q) :
  (0 <= n <= 1)%Q → (- (2 * w) <= lo)%Q → (lo <= w)%Q →
  (- (1 # 562949953421312)
   <= rnd (rnd (rnd (rnd (n * w) + lo) - lo) / w) - n)%Q
  ∧ (rnd (rnd (rnd (rnd (n * w) + lo) - lo) / w) - n
     <= (1 # 562949953421312))%Q.
Proof.
  intros Hn Hm1 Hm2.
  destruct (rounded_product n Hn) as [Hp1 Hp2].
  destruct (denormalize_in_range n Hn) as [Hd1 Hd2].
  assert (Hnw : (0 <= n * w <= w)%Q) by (split; nra).
  destruct (rnd_error_unit (n * w) w) as [Hp3 Hp4]; [lra .. |].
  set (p := rnd (n * w)) in *.
  destruct (rnd_error_unit (p + lo) (2 * w)) as [Hd3 Hd4]; [lra .. |].
  set (d := rnd (p + lo)) in *.
  assert (Ht : (0 <= d - lo <= w)%Q) by (split; lra).
  destruct (rounded_offset _ Ht) as [Ha1 Ha2].
  destruct (quotient_unit _ (conj Ha1 Ha2)) as [Hq1 Hq2].
  destruct (rnd_error_unit (d - lo) w) as [Ha3 Ha4]; [lra .. |].
  destruct (rnd_error_unit (rnd (d - lo) / w) 1) as [Hn3 Hn4]; [lra .. |].
  set (a := rnd (d - lo)) in *.
  assert (Hq : (a / w * w == a)%Q) by (field; lra).
  set (q := (a / w)%Q) in *.
  assert (Hqn1 : (q - n <= 4 * (1 # 4503599627370496))%Q).
  { apply Qmult_le_r with (z := w); [lra |]. lra. }
  assert (Hqn2 : (- (4 * (1 # 4503599627370496)) <= q - n)%Q).
  { apply Qmult_le_r with (z := w); [lra |]. lra. }
  split; lra.
Qed.

(** Out of range the round trip is exact. *)
Lemma normalize_lower : (rnd (rnd (lo - lo) / w) == 0)%Q.
Proof.
  assert (E : (lo - lo == 0)%Q) by ring.
  rewrite E, E0.
  assert (E' : (0 / w == 0)%Q) by (field; lra).
  by rewrite E'.
Qed.

Lemma normalize_upper : (rnd (rnd (lo + w - lo) / w) == 1)%Q.
Proof.
  assert (E : (lo + w - lo == w)%Q) by ring.
  rewrite E, Ew.
  assert (E' : (w / w == 1)%Q) by (field; lra).
  by rewrite E'.
Qed.

Lemma denormalize_zero : (rnd (rnd (0 * w) + lo) == lo)%Q.
Proof.
  assert (E : (0 * w == 0)%Q) by ring.
  rewrite E, E0.
  assert (E' : (0 + lo == lo)%Q) by ring.
  by rewrite E'.
Qed.

Lemma denormalize_one : (rnd (rnd (1 * w) + lo) == lo + w)%Q.
Proof.
  assert (E : (1 * w == w)%Q) by ring.
  rewrite E, Ew.
  assert (E' : (w + lo == lo + w)%Q) by ring.
  by rewrite E'.
Qed.

End on_range.

(** The magnitude bound of a range bounds both of its ends. *)
Lemma magnitude_bounds (lo hi : Q) :
  (- Qmax (Qabs lo) (Qabs hi) <= lo)%Q ∧ (hi <= Qmax (Qabs lo) (Qabs hi))%Q.
Proof.
  pose proof (Q.le_max_l (Qabs lo) (Qabs hi)) as H1.
  pose proof (Q.le_max_r (Qabs lo) (Qabs hi)) as H2.
  pose proof (Qle_Qabs hi) as H3.
  pose proof (Qle_Qabs (- lo)) as H4.
  rewrite Qabs_opp in H4.
  split; lra.
Qed.

Lemma magnitude_small (lo hi b : Q) :
  (- b <= lo)%Q → (lo <= b)%Q → (- b <= hi)%Q → (hi <= b)%Q →
  (Qmax (Qabs lo) (Qabs hi) <= b)%Q.
Proof.
  intros H1 H2 H3 H4.
  apply Q.max_lub; apply Qabs_Qle_condition; split; lra.
Qed.

(** C2.  For a field with a declared range [lo, hi], in binary64
    arithmetic: [normalize_value] clips its input into the range and maps
    it onto [0, 1], within 2^-51 of the exact linear map
    [(clipped - lo) / (hi - lo)]; [denormalize_value] is the inverse linear
    map, and their composition returns the clipped input within
    [Binary64.tolerance lo hi], that is 2^-49 of the larger magnitude of the
    bounds: the input itself within that tolerance when it is in range, and
    exactly the nearer bound when it is not (revenue -100 normalises to 0.0
    and denormalises to 0).  In the other order, a value of [0, 1] comes
    back within 2^-49.  For a field without a declared range both functions
    return their input unchanged. *)
Theorem normalize_denormalize_roundtrip :
  (∀ (f : string) (lo hi v : Q),
      normalization_ranges !! f = Some (lo, hi) →
      let clipped := Py.max2 lo (Py.min2 hi v) in
      let n := Binary64.normalize_value v f in
      let back := Binary64.denormalize_value n f in
      (lo <= clipped <= hi)%Q
      ∧ n = Binary64.round (Binary64.round (clipped - lo)
                            / Binary64.round (hi - lo))%Q
      ∧ (Binary64.round (hi - lo) == hi - lo)%Q
      ∧ (0 <= n <= 1)%Q
      ∧ (- (1 # 2251799813685248) <= n - (clipped - lo) / (hi - lo)
         <= 1 # 2251799813685248)%Q
      ∧ (lo <= back <= hi)%Q
      ∧ (- Binary64.tolerance lo hi <= back - clipped
         <= Binary64.tolerance lo hi)%Q
      ∧ ((lo <= v <= hi)%Q →
           (clipped == v)%Q
           ∧ (- Binary64.tolerance lo hi <= back - v
              <= Binary64.tolerance lo hi)%Q)
      ∧ ((v < lo)%Q → (n == 0)%Q ∧ (back == lo)%Q)
      ∧ ((hi < v)%Q → (n == 1)%Q ∧ (back == hi)%Q)
      ∧ (∀ m : Q,
           Binary64.denormalize_value m f
           = Binary64.round (Binary64.round (m * Binary64.round (hi - lo))
                             + lo)%Q
           ∧ ((0 <= m <= 1)%Q →
                (lo <= Binary64.denormalize_value m f <= hi)%Q
                ∧ (- Binary64.unit_tolerance
                   <= Binary64.normalize_value
                        (Binary64.denormalize_value m f) f - m
                   <= Binary64.unit_tolerance)%Q)))
  ∧ (∀ (f : string) (v : Q),
      normalization_ranges !! f = None →
      Binary64.normalize_value v f = v
      ∧ Binary64.denormalize_value v f = v)
  ∧ ((Binary64.normalize_value (-100) "revenue" == 0)%Q
     ∧ (Binary64.denormalize_value
          (Binary64.normalize_value (-100) "revenue") "revenue" == 0)%Q).
Proof.
  split; [| split].
  - intros f lo hi v Hf clipped n back.
    pose proof (normalization_ranges_width _ _ _ Hf) as Hlt.
    destruct (declared_range_integers f lo hi Hf)
      as (zl & zh & Elo & Ehi & Hz1 & Hz2 & Hz3 & Hz4 & Hz5).
    set (w := (hi - lo)%Q).
    assert (Ew : (w == inject_Z (zh - zl))%Q).
    { unfold w, Z.sub. rewrite inject_Z_plus, inject_Z_opp, Elo, Ehi.
      reflexivity. }
    assert (Eh : (lo + w == hi)%Q) by (unfold w; ring).
    assert (Ilo : (lo == inject_Z zl)%Q) by (rewrite Elo; reflexivity).
    assert (R0 : (rnd 0 == 0)%Q)
      by (apply (rnd_exact_integer 0 0); [reflexivity | lia]).
    assert (R1 : (rnd 1 == 1)%Q)
      by (apply (rnd_exact_integer 1 1); [reflexivity | lia]).
    assert (Rw : (rnd w == w)%Q)
      by (apply (rnd_exact_integer w (zh - zl)); [exact Ew | lia]).
    assert (Rlo : (rnd lo == lo)%Q)
      by (apply (rnd_exact_integer lo zl); [by rewrite Elo | lia]).
    assert (Rhi : (rnd (lo + w) == lo + w)%Q)
      by (apply (rnd_exact_integer (lo + w) zh); [by rewrite Eh, Ehi | lia]).
    rewrite Zle_Qle in Hz1, Hz2, Hz3, Hz4, Hz5.
    rewrite !inject_Z_plus in Hz2, Hz4, Hz5.
    rewrite <- Elo in Hz1, Hz2, Hz4, Hz5.
    rewrite <- Ehi in Hz2, Hz3, Hz4, Hz5.
    change (inject_Z (-1000000)) with (-1000000)%Q in Hz1.
    change (inject_Z 1) with 1%Q in Hz2.
    change (inject_Z 100000000) with 100000000%Q in Hz3.
    assert (Hw1 : (1 <= w)%Q) by (unfold w; lra).
    assert (Hw2 : (w <= 1073741824)%Q) by (unfold w; lra).
    assert (Hlo1 : (-1073741824 <= lo)%Q) by lra.
    assert (Hlo2 : (lo + w <= 1073741824)%Q) by (unfold w; lra).
    assert (Hc := clip_cases lo hi v (Qlt_le_weak _ _ Hlt)).
    fold clipped in Hc.
    assert (Hin : (lo <= clipped <= hi)%Q)
      by (destruct Hc as [[? E]|[[? E]|[? E]]]; rewrite E; lra).
    set (t := (clipped - lo)%Q).
    assert (Ht : (0 <= t <= w)%Q) by (unfold t, w; lra).
    assert (Hn : n = rnd (rnd (clipped - lo) / rnd (hi - lo))%Q)
      by (unfold n, Binary64.normalize_value; by rewrite Hf).
    assert (Hn' : (n == rnd (rnd t / w))%Q)
      by (rewrite Hn; fold w; fold t; by rewrite Rw).
    assert (Hden : ∀ m : Q, Binary64.denormalize_value m f
                            = rnd (rnd (m * rnd (hi - lo)) + lo)%Q)
      by (intros m; unfold Binary64.denormalize_value; by rewrite Hf).
    assert (Hden' : ∀ m : Q, (Binary64.denormalize_value m f
                              == rnd (rnd (m * w) + lo))%Q)
      by (intros m; rewrite Hden; fold w; by rewrite Rw).
    assert (Hunit : (0 <= n <= 1)%Q).
    { rewrite Hn'. exact (normalize_unit w (zh - zl) Ew Hw1 Hw2 t Ht). }
    assert (Hrange : ∀ m : Q, (0 <= m <= 1)%Q →
               (lo <= Binary64.denormalize_value m f <= hi)%Q).
    { intros m Hm. rewrite Hden', <- Eh.
      exact (denormalize_in_range lo w zl (zh - zl) Ilo Ew Hw1 Hw2 Hlo1 Hlo2
               m Hm). }
    pose proof (magnitude_bounds lo hi) as [Hm1 Hm2].
    assert (Hm3 : (Qmax (Qabs lo) (Qabs hi) <= 1073741824)%Q)
      by (apply magnitude_small; lra).
    assert (Htol : (- Binary64.tolerance lo hi <= back - clipped
                    <= Binary64.tolerance lo hi)%Q).
    { assert (Ec : (clipped == t + lo)%Q) by (unfold t; ring).
      assert (Hm2' : (lo + w <= Qmax (Qabs lo) (Qabs hi))%Q) by lra.
      destruct (roundtrip_tolerance lo w (zh - zl) Ew Hw1 Hw2 Hlo1 Hlo2 t
                  (Qmax (Qabs lo) (Qabs hi)) Ht Hm1 Hm2' Hm3) as [Ha Hb].
      unfold back. rewrite Hden', Hn'. unfold Binary64.tolerance.
      split; lra. }
    split; [exact Hin |]. split; [exact Hn |].
    split; [fold w; exact Rw |]. split; [exact Hunit |].
    split.
    { rewrite Hn'. fold t w.
      exact (normalize_linear w (zh - zl) Ew Hw1 Hw2 t Ht). }
    split; [by apply Hrange |]. split; [exact Htol |].
    split; [| split; [| split; [| ]]].
    + intros Hv.
      assert (E : (clipped == v)%Q)
        by (destruct Hc as [[? E]|[[? E]|[? E]]]; rewrite E; lra).
      split; [exact E | by rewrite <- E].
    + intros Hv.
      assert (E : (clipped == lo)%Q)
        by (destruct Hc as [[? E]|[[? E]|[? E]]]; rewrite E; lra).
      assert (En : (n == 0)%Q).
      { rewrite Hn'. unfold t. rewrite E.
        exact (normalize_lower lo w Hw1 R0). }
      split; [exact En |].
      unfold back. rewrite Hden', En.
      exact (denormalize_zero lo w R0 Rlo).
    + intros Hv.
      assert (E : (clipped == hi)%Q)
        by (destruct Hc as [[? E]|[[? E]|[? E]]]; rewrite E; lra).
      assert (En : (n == 1)%Q).
      { rewrite Hn'. unfold t. rewrite E, <- Eh.
        exact (normalize_upper lo w Hw1 R1 Rw). }
      split; [exact En |].
      unfold back. rewrite Hden', En, <- Eh.
      exact (denormalize_one lo w Rw Rhi).
    + intros m. split; [apply Hden |].
      intros Hm. split; [by apply Hrange |].
      pose proof (Hrange m Hm) as Hd.
      set (d := Binary64.denormalize_value m f) in *.
      assert (Ed : (Py.max2 lo (Py.min2 hi d) == d)%Q)
        by (destruct (clip_cases lo hi d (Qlt_le_weak _ _ Hlt))
              as [[? E]|[[? E]|[? E]]]; rewrite E; lra).
      assert (Hnd : (Binary64.normalize_value d f
                     == rnd (rnd (d - lo) / w))%Q).
      { unfold Binary64.normalize_value. rewrite Hf. fold w.
        by rewrite Rw, Ed. }
      rewrite Hnd. unfold d. rewrite Hden'.
      unfold Binary64.unit_tolerance.
      apply (inverse_tolerance lo w zl (zh - zl) Ilo Ew Hw1 Hw2 Hlo1 Hlo2 m Hm);
        unfold w; lra.
  - intros f v Hf.
    unfold Binary64.normalize_value, Binary64.denormalize_value.
    by rewrite Hf.
  - split; vm_compute; reflexivity.
Qed.

End rounded_normalisation.

(** [round] on some inputs: 1/10 gives the binary64 number written 0.1;
    2^53 + 1, halfway between two representable numbers, gives the even one,
    2^53; a quarter of the smallest positive number gives 0. *)
Lemma round_examples :
  (Binary64.round (1 # 10) == 3602879701896397 # 36028797018963968)%Q
  ∧ (Binary64.round 9007199254740993 == 9007199254740992)%Q
  ∧ (Binary64.round (Binary64.smallest * (1 # 4)) == 0)%Q.
Proof. repeat split; vm_compute; reflexivity. Qed.

(** The round trip is not exact: a song count of 28 comes back as
    27.999999999999996 and a revenue of 109703 as 109702.99999999999. *)
Lemma roundtrip_rounds :
  (Binary64.denormalize_value
     (Binary64.normalize_value 28 "song_count") "song_count"
   == 7881299347898367 # 281474976710656)%Q
  ∧ (Binary64.denormalize_value
       (Binary64.normalize_value 109703 "revenue") "revenue"
     == 7538732756369407 # 68719476736)%Q.
Proof. split; vm_compute; reflexivity. Qed.

(** A song count of 28 comes back within the tolerance, a tempo of 250 as
    the bound 200, and a field without a range unchanged. *)
Lemma normalize_denormalize_roundtrip_witness :
  ((- Binary64.tolerance 1 50
    <= Binary64.denormalize_value
         (Binary64.normalize_value 28 "song_count") "song_count" - 28)%Q
   ∧ (Binary64.denormalize_value
        (Binary64.normalize_value 28 "song_count") "song_count" - 28
      <= Binary64.tolerance 1 50)%Q)
  ∧ (Binary64.denormalize_value
       (Binary64.normalize_value 250 "tempo") "tempo" == 200)%Q
  ∧ Binary64.normalize_value 7 "plays" = 7%Q.
Proof.
  destruct normalize_denormalize_roundtrip as (Hdeclared & Hundeclared & _).
  split; [| split].
  - destruct (Hdeclared "song_count" 1%Q 50%Q 28%Q eq_refl)
      as (_ & _ & _ & _ & _ & _ & _ & Hin & _).
    apply Hin. split; discriminate.
  - destruct (Hdeclared "tempo" 60%Q 200%Q 250%Q eq_refl)
      as (_ & _ & _ & _ & _ & _ & _ & _ & _ & Habove & _).
    apply Habove. reflexivity.
  - apply (Hundeclared "plays" 7%Q). reflexivity.
Defined.

(** ** One-hot encoding and argmax decoding *)

Section one_hot_facts.
Import MusicDataEncoder.

Lemma assoc_Some_elem {V} (k : string) (v : V) (d : list (string * V)) :
  Py.assoc k d = Some v → (k, v) ∈ d.
Proof.
  induction d as [|[k' v'] d IH]; simpl; [done |].
  destruct (String.eqb_spec k k') as [->|Hne].
  - intros [= ->]. apply elem_of_cons. by left.
  - intros H. apply elem_of_cons. right. by apply IH.
Qed.

Lemma assoc_None_keys {V} (k : string) (d : list (string * V)) :
  k ∉ d.*1 → Py.assoc k d = None.
Proof.
  induction d as [|[k' v'] d IH]; simpl; [done |].
  rewrite not_elem_of_cons. intros [Hne Hnot].
  destruct (String.eqb_spec k k'); [done | by apply IH].
Qed.

(** A value that is not the text of a listed key is not a key. *)
Lemma dict_get_None {V} (d : list (string * V)) (label : pyval) :
  (∀ s, s ∈ d.*1 → label ≠ VStr s) → Py.dict_get d label = None.
Proof.
  intros H. destruct label as [x|s]; simpl; [done |].
  apply assoc_None_keys. intros Hs. by apply (H s).
Qed.

Lemma genre_mapping_elem (s : string) (i : nat) :
  (s, i) ∈ genre_mapping →
  (i < 8)%nat ∧ genre_mapping !! i = Some (s, i).
Proof.
  unfold genre_mapping. intros H.
  repeat (apply elem_of_cons in H as [H|H]; [inversion H; split; [lia | done] |]).
  by apply elem_of_nil in H.
Qed.

Lemma period_mapping_elem (s : string) (i : nat) :
  (s, i) ∈ period_mapping →
  (i < 8)%nat ∧ period_mapping !! i = Some (s, i).
Proof.
  unfold period_mapping. intros H.
  repeat (apply elem_of_cons in H as [H|H]; [inversion H; split; [lia | done] |]).
  by apply elem_of_nil in H.
Qed.

Lemma one_hot_unknown (mapping : list (string * nat)) (label : pyval) :
  Py.dict_get mapping label = None →
  one_hot mapping label = Ok (replicate (length mapping) 0%Q).
Proof. intros H. unfold one_hot. by rewrite H. Qed.

Lemma one_hot_known (mapping : list (string * nat)) (s : string) (i : nat) :
  Py.assoc s mapping = Some i → (i < length mapping)%nat →
  one_hot mapping (VStr s) = Ok (<[i:=1%Q]> (replicate (length mapping) 0%Q)).
Proof.
  intros H Hi. unfold one_hot, Py.setitem. simpl. rewrite H.
  rewrite length_replicate. by rewrite decide_True.
Qed.

(** A one-hot vector read slot by slot. *)
Lemma one_hot_vector_lookup (n i j : nat) :
  (i < n)%nat → (j < n)%nat →
  <[i:=1%Q]> (replicate n 0%Q) !! j = Some (if decide (j = i) then 1%Q else 0%Q).
Proof.
  intros Hi Hj. destruct (decide (j = i)) as [->|Hne].
  - apply list_lookup_insert_eq. by rewrite length_replicate.
  - rewrite list_lookup_insert_ne by done. by apply lookup_replicate_2.
Qed.

Lemma one_hot_known_slots (mapping : list (string * nat)) (s : string) (i : nat) :
  Py.assoc s mapping = Some i → (i < length mapping)%nat →
  ∃ v, one_hot mapping (VStr s) = Ok v ∧ length v = length mapping
       ∧ v !! i = Some 1%Q
       ∧ ∀ j, (j < length mapping)%nat → j ≠ i → v !! j = Some 0%Q.
Proof.
  intros H Hi. eexists. split; [by apply one_hot_known |].
  split; [by rewrite length_insert, length_replicate |].
  split.
  - rewrite one_hot_vector_lookup by done. by rewrite decide_True.
  - intros j Hj Hne.
    rewrite one_hot_vector_lookup by done. by rewrite decide_False.
Qed.

(** Whatever the label, the encoding succeeds and has the width of the
    enumeration. *)
Lemma encode_genre_total (label : pyval) :
  ∃ v, encode_genre label = Ok v ∧ length v = 8%nat.
Proof.
  unfold encode_genre. destruct (Py.dict_get genre_mapping label) as [i|] eqn:E.
  - destruct label as [x|s]; [done |].
    change (Py.assoc s genre_mapping = Some i) in E.
    destruct (genre_mapping_elem s i (assoc_Some_elem _ _ _ E)) as [Hi _].
    rewrite (one_hot_known _ _ _ E Hi). eexists; split; [done |].
    by rewrite length_insert, length_replicate.
  - rewrite (one_hot_unknown _ _ E). eexists; split; [done |].
    by rewrite length_replicate.
Qed.

Lemma encode_period_total (label : pyval) :
  ∃ v, encode_period label = Ok v ∧ length v = 8%nat.
Proof.
  unfold encode_period. destruct (Py.dict_get period_mapping label) as [i|] eqn:E.
  - destruct label as [x|s]; [done |].
    change (Py.assoc s period_mapping = Some i) in E.
    destruct (period_mapping_elem s i (assoc_Some_elem _ _ _ E)) as [Hi _].
    rewrite (one_hot_known _ _ _ E Hi). eexists; split; [done |].
    by rewrite length_insert, length_replicate.
  - rewrite (one_hot_unknown _ _ E). eexists; split; [done |].
    by rewrite length_replicate.
Qed.

(** C8.  A label outside the enumeration is encoded, without any error,
    as the all-zero vector of the enumeration's width, by [encode_genre]
    and by [encode_period] alike; an enumerated label is encoded as the
    vector holding 1.0 at the label's index and 0.0 in every other slot. *)
Theorem one_hot_encoding :
  (∀ label : pyval,
      (∀ s, s ∈ genre_mapping.*1 → label ≠ VStr s) →
      encode_genre label = Ok (replicate 8 0%Q))
  ∧ (∀ label : pyval,
      (∀ s, s ∈ period_mapping.*1 → label ≠ VStr s) →
      encode_period label = Ok (replicate 8 0%Q))
  ∧ (∀ (s : string) (i : nat),
      Py.assoc s genre_mapping = Some i →
      ∃ v, encode_genre (VStr s) = Ok v ∧ length v = 8%nat
           ∧ v !! i = Some 1%Q
           ∧ ∀ j, (j < 8)%nat → j ≠ i → v !! j = Some 0%Q)
  ∧ (∀ (s : string) (i : nat),
      Py.assoc s period_mapping = Some i →
      ∃ v, encode_period (VStr s) = Ok v ∧ length v = 8%nat
           ∧ v !! i = Some 1%Q
           ∧ ∀ j, (j < 8)%nat → j ≠ i → v !! j = Some 0%Q).
Proof.
  split; [| split; [| split]].
  - intros label H. apply (one_hot_unknown genre_mapping).
    by apply dict_get_None.
  - intros label H. apply (one_hot_unknown period_mapping).
    by apply dict_get_None.
  - intros s i H.
    destruct (genre_mapping_elem s i (assoc_Some_elem _ _ _ H)) as [Hi _].
    exact (one_hot_known_slots genre_mapping s i H Hi).
  - intros s i H.
    destruct (period_mapping_elem s i (assoc_Some_elem _ _ _ H)) as [Hi _].
    exact (one_hot_known_slots period_mapping s i H Hi).
Qed.

Lemma one_hot_encoding_witness :
  encode_genre (VStr "Metal") = Ok (replicate 8 0%Q)
  ∧ encode_period (VStr "2025-Q1") = Ok (replicate 8 0%Q)
  ∧ (∃ v, encode_genre (VStr "Jazz") = Ok v ∧ length v = 8%nat
          ∧ v !! 6%nat = Some 1%Q
          ∧ ∀ j, (j < 8)%nat → j ≠ 6%nat → v !! j = Some 0%Q)
  ∧ (∃ v, encode_period (VStr "2023-Q2") = Ok v ∧ length v = 8%nat
          ∧ v !! 5%nat = Some 1%Q
          ∧ ∀ j, (j < 8)%nat → j ≠ 5%nat → v !! j = Some 0%Q).
Proof.
  destruct one_hot_encoding as (Hg0 & Hp0 & Hg1 & Hp1).
  split; [| split; [| split]].
  - apply Hg0. intros s Hs [= <-]. simpl in Hs.
    repeat (apply elem_of_cons in Hs as [Hs|Hs]; [discriminate |]).
    by apply elem_of_nil in Hs.
  - apply Hp0. intros s Hs [= <-]. simpl in Hs.
    repeat (apply elem_of_cons in Hs as [Hs|Hs]; [discriminate |]).
    by apply elem_of_nil in Hs.
  - apply Hg1. reflexivity.
  - apply Hp1. reflexivity.
Defined.

(** *** [max] and [index] *)

Lemma max2_ub (a b : Q) : (a <= Py.max2 a b)%Q ∧ (b <= Py.max2 a b)%Q.
Proof. destruct (max2_cases a b) as [[H ->]|[H ->]]; split; lra. Qed.

Lemma max2_either (a b : Q) : Py.max2 a b = a ∨ Py.max2 a b = b.
Proof. destruct (max2_cases a b) as [[_ ->]|[_ ->]]; auto. Qed.

(** The running maximum bounds every item and is one of the items. *)
Lemma foldl_max2_spec (xs : list Q) (x : Q) :
  let m := foldl Py.max2 x xs in
  (∀ y, y ∈ x :: xs → (y <= m)%Q) ∧ m ∈ x :: xs.
Proof.
  revert x. induction xs as [|y ys IH]; intros x m.
  - split; [| apply elem_of_cons; by left].
    intros z Hz. apply elem_of_cons in Hz as [->|Hz]; [apply Qle_refl |].
    by apply elem_of_nil in Hz.
  - subst m. simpl. destruct (IH (Py.max2 x y)) as [Hub Hin].
    destruct (max2_ub x y) as [Hx Hy].
    assert (Hm : (Py.max2 x y <= foldl Py.max2 (Py.max2 x y) ys)%Q)
      by (apply Hub, elem_of_cons; by left).
    split.
    + intros z Hz. apply elem_of_cons in Hz as [->|Hz]; [lra |].
      apply elem_of_cons in Hz as [->|Hz]; [lra |].
      apply Hub, elem_of_cons. by right.
    + apply elem_of_cons in Hin as [Hin|Hin].
      * rewrite Hin. destruct (max2_either x y) as [->| ->].
        -- apply elem_of_cons; by left.
        -- apply elem_of_cons; right; apply elem_of_cons; by left.
      * apply elem_of_cons; right; apply elem_of_cons; by right.
Qed.

Lemma max_list_spec (l : list Q) :
  l ≠ [] →
  ∃ m, Py.max_list l = Ok m ∧ m ∈ l ∧ ∀ y, y ∈ l → (y <= m)%Q.
Proof.
  destruct l as [|x xs]; [done |]. intros _.
  destruct (foldl_max2_spec xs x) as [Hub Hin].
  exists (foldl Py.max2 x xs). by split.
Qed.

(** [index] returns the position [i] when slot [i] equals [x] and no
    earlier slot does. *)
Lemma index_first (x : Q) (l : list Q) (i : nat) (y : Q) :
  l !! i = Some y → (y == x)%Q →
  (∀ j z, (j < i)%nat → l !! j = Some z → ¬ (z == x)%Q) →
  Py.index x l = Ok i.
Proof.
  revert i. induction l as [|a l IH]; intros i Hi Hy Hbefore; [done |].
  simpl. destruct i as [|i].
  - injection Hi as ->. by rewrite (proj2 (Qeq_bool_iff y x) Hy).
  - destruct (Qeq_bool a x) eqn:E.
    + exfalso. apply (Hbefore 0%nat a); [lia | done |].
      by apply Qeq_bool_iff.
    + rewrite (IH i); [done | done | done |].
      intros j z Hj Hz. apply (Hbefore (S j) z); [lia | done].
Qed.

(** [index] finds any value that occurs in the list. *)
Lemma index_found (x : Q) (l : list Q) :
  x ∈ l → ∃ i, Py.index x l = Ok i ∧ (i < length l)%nat.
Proof.
  induction l as [|a l IH]; intros Hx; [by apply elem_of_nil in Hx |].
  simpl. destruct (Qeq_bool a x) eqn:E.
  - exists 0%nat. split; [done | lia].
  - apply elem_of_cons in Hx as [->|Hx].
    + by rewrite (proj2 (Qeq_bool_iff a a) (Qeq_refl a)) in E.
    + destruct (IH Hx) as (i & -> & Hi). exists (S i). split; [done | lia].
Qed.

Lemma argmax_first_maximum (v : list Q) (i : nat) :
  first_maximum v i →
  ∃ m, Py.max_list v = Ok m ∧ Py.index m v = Ok i.
Proof.
  intros (mi & Hi & Hub & Hbefore).
  assert (Hne : v ≠ []) by (intros ->; done).
  destruct (max_list_spec v Hne) as (m & Hm & Hin & Hmax).
  exists m. split; [done |].
  assert (Heq : (mi == m)%Q).
  { apply Qle_antisym.
    - apply Hmax. by eapply list_elem_of_lookup_2.
    - apply list_elem_of_lookup_1 in Hin as [j Hj]. by apply (Hub j). }
  apply (index_first m v i mi Hi Heq).
  intros j z Hj Hz Hzm. specialize (Hbefore j z Hj Hz). lra.
Qed.

(** *** Decoding *)

Lemma decode_genre_at (v : list Q) (m : Q) (i : nat) :
  Py.max_list v = Ok m → Py.index m v = Ok i →
  decode_genre v = Ok (first_with_index genre_mapping i "Unknown").
Proof. intros Hm Hi. unfold decode_genre. rewrite Hm. simpl. by rewrite Hi. Qed.

(** Below the width of the table the loop of [decode_genre] returns at the
    entry whose index is [i], and that entry is the [i]-th one. *)
Lemma first_with_index_genre (i : nat) (fallthrough : string) :
  (i < 8)%nat →
  ∃ g, genre_mapping !! i = Some (g, i)
       ∧ first_with_index genre_mapping i fallthrough = g.
Proof.
  intros Hi.
  do 8 (destruct i as [|i]; [eexists; split; reflexivity |]). lia.
Qed.

Lemma genre_names_not_unknown (g : string) :
  g ∈ genre_mapping.*1 → g ≠ "Unknown".
Proof.
  intros H ->. simpl in H.
  repeat (apply elem_of_cons in H as [H|H]; [discriminate |]).
  by apply elem_of_nil in H.
Qed.

(** C5.  Encoding an enumerated genre and decoding the result gives the
    genre back; and [decode_genre] returns the genre whose index is the
    first position at which the vector is largest, whether or not the same
    largest value occurs again at later positions. *)
Theorem genre_roundtrip_lowest_tie :
  (∀ s : string,
      s ∈ genre_mapping.*1 →
      (v ← encode_genre (VStr s); decode_genre v) = Ok s)
  ∧ (∀ (v : list Q) (i : nat) (g : string),
      first_maximum v i →
      Py.assoc g genre_mapping = Some i →
      decode_genre v = Ok g).
Proof.
  split.
  - intros s H. simpl in H.
    repeat (apply elem_of_cons in H as [->|H]; [reflexivity |]).
    by apply elem_of_nil in H.
  - intros v i g Hfirst Hg.
    destruct (argmax_first_maximum v i Hfirst) as (m & Hm & Hi).
    rewrite (decode_genre_at v m i Hm Hi). f_equal.
    destruct (genre_mapping_elem g i (assoc_Some_elem _ _ _ Hg)) as [Hlt Hat].
    destruct (first_with_index_genre i "Unknown" Hlt) as (g' & Hat' & ->).
    congruence.
Qed.

Lemma genre_roundtrip_lowest_tie_witness :
  (v ← encode_genre (VStr "Jazz"); decode_genre v) = Ok "Jazz"
  ∧ decode_genre [0; 1; 0; 1; 1; 0; 0; 0]%Q = Ok "Hip-Hop".
Proof.
  destruct genre_roundtrip_lowest_tie as [Hround Htie]. split.
  - apply Hround. simpl.
    repeat (apply elem_of_cons; first [by left | right]).
  - apply (Htie _ 1%nat "Hip-Hop"); [| reflexivity].
    exists 1%Q. split; [reflexivity |]. split.
    + intros j x Hj.
      do 8 (destruct j as [|j]; [injection Hj as <-; discriminate |]).
      discriminate.
    + intros j x Hlt Hj.
      destruct j as [|j]; [injection Hj as <-; reflexivity | lia].
Defined.

(** C9.  On a non-empty vector of at most eight slots [decode_genre]
    returns one of the eight enumerated names, never the ["Unknown"] of
    its last line; the all-zero vector decodes to ["Pop"], and so does
    the encoding of every label outside the enumeration. *)
Theorem decode_genre_enumerated :
  (∀ v : list Q,
      v ≠ [] → (length v <= 8)%nat →
      ∃ g, decode_genre v = Ok g ∧ g ∈ genre_mapping.*1 ∧ g ≠ "Unknown")
  ∧ decode_genre (replicate 8 0%Q) = Ok "Pop"
  ∧ (∀ label : pyval,
      (∀ s, s ∈ genre_mapping.*1 → label ≠ VStr s) →
      (v ← encode_genre label; decode_genre v) = Ok "Pop").
Proof.
  split; [| split].
  - intros v Hne Hlen.
    destruct (max_list_spec v Hne) as (m & Hm & Hin & _).
    destruct (index_found m v Hin) as (i & Hi & Hlt).
    destruct (first_with_index_genre i "Unknown") as (g & Hat & Hg); [lia |].
    exists g. rewrite (decode_genre_at v m i Hm Hi), Hg.
    assert (Hmem : g ∈ genre_mapping.*1).
    { apply list_elem_of_fmap. exists (g, i). split; [done |].
      by eapply list_elem_of_lookup_2. }
    split; [done |]. split; [done | by apply genre_names_not_unknown].
  - reflexivity.
  - intros label H. unfold encode_genre.
    rewrite (one_hot_unknown genre_mapping label (dict_get_None _ _ H)).
    reflexivity.
Qed.

Lemma decode_genre_enumerated_witness :
  (∃ g, decode_genre [3; 7; 7]%Q = Ok g
        ∧ g ∈ genre_mapping.*1 ∧ g ≠ "Unknown")
  ∧ (v ← encode_genre (VStr "Metal"); decode_genre v) = Ok "Pop"
  ∧ (v ← encode_genre (VNum 3); decode_genre v) = Ok "Pop".
Proof.
  destruct decode_genre_enumerated as (Hshort & _ & Hunknown).
  split; [| split].
  - apply Hshort; [discriminate | simpl; lia].
  - apply Hunknown. intros s Hs [= <-]. simpl in Hs.
    repeat (apply elem_of_cons in Hs as [Hs|Hs]; [discriminate |]).
    by apply elem_of_nil in Hs.
  - apply Hunknown. intros s _. discriminate.
Defined.

End one_hot_facts.

(** ** The feature vector *)

Section feature_vector.
Import MusicDataEncoder.

Lemma seen_snoc (k a : string) (seen : list string) :
  k ≠ a → k ∈ seen ↔ k ∈ seen ++ [a].
Proof.
  intros Hne. rewrite elem_of_app, elem_of_cons, elem_of_nil. tauto.
Qed.

(** After the loop over [fs], started from [d0] with the fields [seen]
    already handled, the dict holds exactly the numeric entries of the
    handled fields. *)
Lemma encode_numeric_loop (md : gmap string pyval) (fs seen : list string)
    (d0 d : gmap string (list Q)) :
  (∀ k, d0 !! k = if decide (k ∈ seen) then numeric_entry md k else None) →
  Py.for_each (encode_numeric md) d0 fs = Ok d →
  ∀ k, d !! k = if decide (k ∈ seen ++ fs) then numeric_entry md k else None.
Proof.
  revert seen d0. induction fs as [|a fs IH]; intros seen d0 H0 Hloop k.
  - injection Hloop as <-. rewrite app_nil_r. apply H0.
  - simpl in Hloop.
    destruct (encode_numeric md d0 a) as [d1|e] eqn:Ha; [| done].
    simpl in Hloop.
    replace (seen ++ a :: fs) with ((seen ++ [a]) ++ fs)
      by (by rewrite <- app_assoc).
    apply (IH (seen ++ [a]) d1); [| done].
    clear k Hloop IH. intros k. unfold encode_numeric in Ha.
    unfold numeric_entry in *.
    destruct (md !! a) as [[x|t]|] eqn:Hmd; simpl in Ha; [| done |];
      injection Ha as <-.
    + destruct (decide (k = a)) as [->|Hne].
      * rewrite lookup_insert_eq, decide_True, Hmd; [done |].
        apply elem_of_app. right. apply elem_of_cons. by left.
      * rewrite lookup_insert_ne, H0 by done. by apply decide_ext, seen_snoc.
    + rewrite H0. destruct (decide (k = a)) as [->|Hne].
      * rewrite Hmd. by destruct (decide (a ∈ seen)), (decide (a ∈ seen ++ [a])).
      * by apply decide_ext, seen_snoc.
Qed.

Lemma encode_numeric_loop_total (md : gmap string pyval) (fs : list string)
    (d0 : gmap string (list Q)) :
  (∀ f x, f ∈ fs → md !! f = Some x → ∃ q, x = VNum q) →
  ∃ d, Py.for_each (encode_numeric md) d0 fs = Ok d.
Proof.
  revert d0. induction fs as [|a fs IH]; intros d0 H; [by eexists |].
  assert (∃ d1, encode_numeric md d0 a = Ok d1) as [d1 Hd1].
  { unfold encode_numeric. destruct (md !! a) as [x|] eqn:Hmd; [| by eexists].
    destruct (H a x) as [q ->]; [apply elem_of_cons; by left | done |].
    by eexists. }
  simpl. rewrite Hd1. simpl.
  apply IH. intros f y Hf. apply H, elem_of_cons. by right.
Qed.

Lemma encode_labelled_spec (md : gmap string pyval) (key : string)
    (enc : pyval → result (list Q)) (d d' : gmap string (list Q)) :
  encode_labelled md key enc d = Ok d' →
  (∀ k, k ≠ key → d' !! k = d !! k)
  ∧ match md !! key with
    | Some label => ∃ v, enc label = Ok v ∧ d' !! key = Some v
    | None => d' !! key = d !! key
    end.
Proof.
  unfold encode_labelled. destruct (md !! key) as [label|].
  - destruct (enc label) as [v|e] eqn:Hv; simpl; [| done].
    intros [= <-]. split.
    + intros k Hk. by rewrite lookup_insert_ne.
    + exists v. by rewrite lookup_insert_eq.
  - by intros [= <-].
Qed.

Lemma numeric_fields_not_labels (f : string) :
  f ∈ numeric_fields → f ≠ "genre" ∧ f ≠ "period".
Proof.
  unfold numeric_fields. intros H.
  repeat (apply elem_of_cons in H as [->|H]; [by split |]).
  by apply elem_of_nil in H.
Qed.

Lemma feature_order_numeric (f : string) :
  f ∈ feature_order → f ∈ numeric_fields.
Proof.
  unfold feature_order. intros H.
  repeat (apply elem_of_cons in H as [->|H];
          [unfold numeric_fields; repeat (apply elem_of_cons; first [by left | right]) |]).
  by apply elem_of_nil in H.
Qed.

(** The entries of the dict [encode_music_data] returns. *)
Lemma encode_music_data_entries (now : string) (md : gmap string pyval)
    (e : encoded) :
  encode_music_data now md = Ok e →
  (∀ f, f ∈ numeric_fields → entries e !! f = numeric_entry md f)
  ∧ match md !! "genre" with
    | Some label => ∃ v, encode_genre label = Ok v ∧ entries e !! "genre" = Some v
    | None => entries e !! "genre" = None
    end
  ∧ match md !! "period" with
    | Some label => ∃ v, encode_period label = Ok v ∧ entries e !! "period" = Some v
    | None => entries e !! "period" = None
    end.
Proof.
  unfold encode_music_data.
  destruct (Py.for_each _ _ _) as [d1|?] eqn:H1; simpl; [| done].
  destruct (encode_labelled md "genre" _ d1) as [d2|?] eqn:H2; simpl; [| done].
  destruct (encode_labelled md "period" _ d2) as [d3|?] eqn:H3; simpl; [| done].
  intros [= <-]. simpl.
  assert (Hd1 : ∀ k, d1 !! k
                     = if decide (k ∈ numeric_fields) then numeric_entry md k
                       else None).
  { intros k. apply (encode_numeric_loop md numeric_fields [] ∅); [| done].
    intros k'. by rewrite lookup_empty. }
  destruct (encode_labelled_spec _ _ _ _ _ H2) as [Hother2 Hgenre].
  destruct (encode_labelled_spec _ _ _ _ _ H3) as [Hother3 Hperiod].
  split; [| split].
  - intros f Hf. destruct (numeric_fields_not_labels f Hf) as [Hg Hp].
    rewrite Hother3, Hother2, Hd1 by done. by rewrite decide_True.
  - rewrite Hother3 by done.
    destruct (md !! "genre"); [done |]. by rewrite Hgenre, Hd1.
  - destruct (md !! "period"); [done |].
    by rewrite Hperiod, Hother2, Hd1.
Qed.

(** The loop over [feature_order] appends one slot per feature. *)
Lemma foldl_add_feature (md : gmap string pyval) (d : gmap string (list Q))
    (fs : list string) (acc : list Q) :
  (∀ f, f ∈ fs → d !! f = numeric_entry md f) →
  foldl (add_feature d) acc fs = acc ++ (scalar_slot md <$> fs).
Proof.
  revert acc. induction fs as [|f fs IH]; intros acc H; simpl.
  - by rewrite app_nil_r.
  - rewrite IH by (intros g Hg; apply H, elem_of_cons; by right).
    assert (add_feature d acc f = acc ++ [scalar_slot md f]) as ->.
    { unfold add_feature. rewrite H by (apply elem_of_cons; by left).
      unfold numeric_entry, scalar_slot. by destruct (md !! f) as [[x|t]|]. }
    by rewrite <- app_assoc.
Qed.

(** The vector [create_feature_vector] returns: the ten scalar slots in
    the fixed order, then the genre slots, then the period slots. *)
Lemma create_feature_vector_spec (now : string) (md : gmap string pyval)
    (v : list Q) :
  create_feature_vector now md = Ok v →
  ∃ g p, v = (scalar_slot md <$> feature_order) ++ g ++ p
         ∧ match md !! "genre" with
           | Some label => encode_genre label = Ok g
           | None => g = replicate 8 0%Q
           end
         ∧ match md !! "period" with
           | Some label => encode_period label = Ok p
           | None => p = replicate 8 0%Q
           end.
Proof.
  unfold create_feature_vector.
  destruct (encode_music_data now md) as [e|?] eqn:He; [| done].
  intros Hv.
  change (Ok (add_one_hot (entries e) "period" period_mapping
                (add_one_hot (entries e) "genre" genre_mapping
                   (foldl (add_feature (entries e)) [] feature_order)))
          = Ok v) in Hv.
  apply Ok_inj in Hv. subst v.
  destruct (encode_music_data_entries now md e He) as (Hnum & Hgenre & Hperiod).
  rewrite (foldl_add_feature md) by (intros f Hf; by apply Hnum, feature_order_numeric).
  unfold add_one_hot. rewrite app_nil_l.
  destruct (md !! "genre") as [lg|]; destruct (md !! "period") as [lp|].
  - destruct Hgenre as (g & Hg & ->). destruct Hperiod as (q & Hq & ->).
    exists g, q. by rewrite <- (assoc_L (++)).
  - destruct Hgenre as (g & Hg & ->). rewrite Hperiod.
    exists g, (replicate 8 0%Q). by rewrite <- (assoc_L (++)).
  - destruct Hperiod as (q & Hq & ->). rewrite Hgenre.
    exists (replicate 8 0%Q), q. by rewrite <- (assoc_L (++)).
  - rewrite Hgenre, Hperiod.
    exists (replicate 8 0%Q), (replicate 8 0%Q). by rewrite <- (assoc_L (++)).
Qed.

Lemma encode_music_data_total (now : string) (md : gmap string pyval) :
  numbers_in_numeric_fields md → ∃ e, encode_music_data now md = Ok e.
Proof.
  intros Hmd. unfold encode_music_data.
  destruct (encode_numeric_loop_total md numeric_fields ∅ Hmd) as [d1 ->].
  simpl. unfold encode_labelled.
  destruct (md !! "genre") as [lg|]; destruct (md !! "period") as [lp|];
    try (destruct (encode_genre_total lg) as (g & -> & _));
    try (destruct (encode_period_total lp) as (q & -> & _));
    simpl; by eexists.
Qed.

(** C1, amended.  Whichever optional numeric or categorical fields a
    record holds, the vector [create_feature_vector] returns has exactly
    26 slots (10 scalar, 8 genre, 8 period), and the slot of a scalar
    feature the record does not hold is 0.0; the call returns for every
    record whose numeric fields, where present, hold numbers. *)
Theorem create_feature_vector_length (now : string) (md : gmap string pyval) :
  (∀ v : list Q,
      create_feature_vector now md = Ok v →
      length v = 26%nat
      ∧ ∀ (i : nat) (f : string),
          feature_order !! i = Some f → md !! f = None → v !! i = Some 0%Q)
  ∧ (numbers_in_numeric_fields md →
     ∃ v, create_feature_vector now md = Ok v ∧ length v = 26%nat).
Proof.
  assert (Hlen : ∀ v, create_feature_vector now md = Ok v →
                      length v = 26%nat
                      ∧ ∀ (i : nat) (f : string),
                          feature_order !! i = Some f → md !! f = None →
                          v !! i = Some 0%Q).
  { intros v Hv.
    destruct (create_feature_vector_spec now md v Hv) as (g & p & -> & Hg & Hp).
    assert (Hg8 : length g = 8%nat).
    { destruct (md !! "genre") as [l|]; [| by subst g].
      destruct (encode_genre_total l) as (g' & Hg' & Hl). congruence. }
    assert (Hp8 : length p = 8%nat).
    { destruct (md !! "period") as [l|]; [| by subst p].
      destruct (encode_period_total l) as (p' & Hp' & Hl). congruence. }
    split.
    - rewrite !length_app, length_fmap, Hg8, Hp8. reflexivity.
    - intros i f Hi Hf.
      rewrite lookup_app_l
        by (rewrite length_fmap; by eapply lookup_lt_Some).
      rewrite list_lookup_fmap, Hi. simpl. unfold scalar_slot. by rewrite Hf. }
  split; [exact Hlen |].
  intros Hmd. destruct (encode_music_data_total now md Hmd) as [e He].
  unfold create_feature_vector at 1. rewrite He. eexists. split; [done |].
  apply Hlen. unfold create_feature_vector. by rewrite He.
Qed.

Lemma sparse_music_data_numbers : numbers_in_numeric_fields sparse_music_data.
Proof.
  intros f x Hf Hx. unfold numeric_fields in Hf.
  repeat (apply elem_of_cons in Hf as [->|Hf];
          [vm_compute in Hx; first [discriminate | injection Hx as <-; by eexists] |]).
  by apply elem_of_nil in Hf.
Defined.

Lemma create_feature_vector_length_witness :
  ∃ v, create_feature_vector "2024-03-01T09:00:00" sparse_music_data = Ok v
       ∧ length v = 26%nat.
Proof.
  apply (create_feature_vector_length "2024-03-01T09:00:00" sparse_music_data).
  exact sparse_music_data_numbers.
Defined.

(** The length is not the stated 18: on the encoder's own test record,
    which holds every field, the vector has 26 slots. *)
Lemma create_feature_vector_length_18_fails :
  length <$> create_feature_vector "2024-03-01T09:00:00" test_music_data
  = Ok 26%nat
  ∧ ¬ (∀ (now : string) (md : gmap string pyval) (v : list Q),
         create_feature_vector now md = Ok v → length v = 18%nat).
Proof.
  split; [reflexivity |]. intros H.
  pose proof (H "2024-03-01T09:00:00" test_music_data _ eq_refl) as Hlen.
  vm_compute in Hlen. discriminate.
Qed.

End feature_vector.

(** ** The engine *)

Section engine_facts.

Context (L : heaan.lib) (log_slots : nat).

Abbreviation num_slots := (HEEngine.num_slots log_slots).
Abbreviation Message := (HEEngine.Message log_slots).
Abbreviation encrypt_data := (HEEngine.encrypt_data L log_slots).
Abbreviation decrypt_data := (HEEngine.decrypt_data L log_slots).
Abbreviation add_encrypted := (HEEngine.add_encrypted L).
Abbreviation multiply_by_constant := (HEEngine.multiply_by_constant L).
Abbreviation calculate_encrypted_sum := (HEEngine.calculate_encrypted_sum L).
Abbreviation calculate_encrypted_average :=
  (HEEngine.calculate_encrypted_average L).

Lemma num_slots_pos : (0 < num_slots)%nat.
Proof.
  unfold HEEngine.num_slots. induction log_slots as [|n IH]; simpl; lia.
Qed.

Lemma length_Message : length Message = num_slots.
Proof. apply length_replicate. Qed.

(** A loop that reads the slots [start, start + n) of a list in order. *)
Lemma getitem_Some {A} (l : list A) (i : nat) (x : A) :
  l !! i = Some x → Py.getitem l i = Ok x.
Proof. intros H. unfold Py.getitem. by rewrite H. Qed.

Lemma for_each_getitem {A St} (l : list A) (f : St → A → St) (s0 : St)
    (start n : nat) :
  (start + n <= length l)%nat →
  Py.for_each (λ s i, c ← Py.getitem l i; Ok (f s c)) s0 (seq start n)
  = Ok (foldl f s0 (take n (drop start l))).
Proof.
  revert start s0. induction n as [|n IH]; intros start s0 Hlen; simpl.
  - done.
  - destruct (lookup_lt_is_Some_2 l start) as [x Hx]; [lia |].
    rewrite (getitem_Some l start x Hx). simpl.
    rewrite IH by lia. by rewrite (drop_S l x start Hx).
Qed.

Lemma foldl_snoc_fmap {A B} (f : A → B) (l : list A) (acc : list B) :
  foldl (λ result c, result ++ [f c]) acc l = acc ++ (f <$> l).
Proof.
  revert acc. induction l as [|a l IH]; intros acc; simpl.
  - by rewrite app_nil_r.
  - rewrite IH. by rewrite <- app_assoc.
Qed.

Lemma setitem_lt {A} (l : list A) (i : nat) (x : A) :
  (i < length l)%nat → Py.setitem l i x = Ok (<[i:=x]> l).
Proof. intros H. unfold Py.setitem. by rewrite decide_True. Qed.

(** The loop of [encrypt_data] over [enumerate(padded_data)], from slot
    [k] on: the slots before [k] are kept and the others overwritten. *)
Lemma fill_message (l : list Q) (k : nat) (msg : list Py.complex) :
  length msg = (k + length l)%nat →
  Py.for_each
    (λ message '(i, value), Py.setitem message i (Py.complex_of value))
    msg (imap (λ i v, ((k + i)%nat, v)) l)
  = Ok (take k msg ++ (Py.complex_of <$> l)).
Proof.
  revert k msg. induction l as [|x l IH]; intros k msg Hlen; simpl.
  - rewrite app_nil_r, take_ge; [done |]. simpl in Hlen. lia.
  - simpl in Hlen.
    rewrite (setitem_lt msg (k + 0)) by lia. simpl.
    rewrite (imap_ext _ (λ i v, ((S k + i)%nat, v)))
      by (intros i v _; simpl; f_equal; lia).
    rewrite IH by (rewrite length_insert; lia).
    f_equal. rewrite Nat.add_0_r.
    rewrite (take_S_r _ k (Py.complex_of x))
      by (apply list_lookup_insert_eq; lia).
    rewrite take_insert_ge by lia.
    by rewrite <- app_assoc.
Qed.

(** C4.  [encrypt_data] raises its capacity error ([ValueError]) on every
    vector longer than [num_slots = 2 ^ log_slots]; on every vector of at
    most that length it succeeds, and the message it encrypts holds the
    vector followed by zeros up to [num_slots] slots. *)
Theorem encrypt_data_capacity (data : list Q) :
  HEEngine.num_slots log_slots = (2 ^ log_slots)%nat
  ∧ ((num_slots < length data)%nat → encrypt_data data = Raise ValueError)
  ∧ ((length data <= num_slots)%nat →
     let message :=
       (Py.complex_of <$> data)
       ++ replicate (num_slots - length data) (Py.Complex 0 0) in
     length message = num_slots
     ∧ encrypt_data data = Ok (heaan.encrypt L message)).
Proof.
  split; [reflexivity |]. split.
  - intros H. unfold HEEngine.encrypt_data. by rewrite decide_True.
  - intros H message. split.
    + unfold message. rewrite length_app, length_fmap, length_replicate. lia.
    + unfold HEEngine.encrypt_data. rewrite decide_False by lia.
      change (Py.enumerate ?l) with (imap (λ i v, ((0 + i)%nat, v)) l).
      rewrite fill_message.
      * simpl. by rewrite fmap_app, fmap_replicate.
      * rewrite length_Message, length_app, length_replicate. lia.
Qed.

(** What [decrypt_data] returns for a size it takes as given: the real
    parts of the first [n] slots. *)
Lemma decrypt_data_loop (ciphertext : heaan.Ciphertext L) (n : nat) :
  heaan.keeps_slots L → (n <= num_slots)%nat →
  Py.for_each
    (λ result i,
       c ← Py.getitem (heaan.decrypt L ciphertext Message) i;
       Ok (result ++ [Py.real c]))
    [] (seq 0 n)
  = Ok (Py.real <$> take n (heaan.decrypt L ciphertext Message)).
Proof.
  intros Hkeep Hn.
  rewrite (for_each_getitem _ (λ result c, result ++ [Py.real c]))
    by (rewrite Hkeep, length_Message; lia).
  by rewrite foldl_snoc_fmap, drop_0.
Qed.

Lemma decrypt_data_in_range (ciphertext : heaan.Ciphertext L) (n : Z) :
  heaan.keeps_slots L → (0 < n <= Z.of_nat num_slots)%Z →
  ∃ v, decrypt_data ciphertext (Some n) = Ok v
       ∧ v = Py.real <$> take (Z.to_nat n) (heaan.decrypt L ciphertext Message)
       ∧ Z.of_nat (length v) = n.
Proof.
  intros Hkeep Hn. eexists. split; [| split; [reflexivity |]].
  - unfold HEEngine.decrypt_data, HEEngine.actual_size, Py.range.
    rewrite decide_False by lia. apply decrypt_data_loop; [done | lia].
  - rewrite length_fmap, length_take, Hkeep, length_Message. lia.
Qed.

(** C3, at the size 0.  [decrypt_data] takes the size 0 for an omitted
    size: it returns the real parts of all [num_slots] slots, as it does
    for [None], and not the empty vector. *)
Theorem decrypt_data_size_zero (ciphertext : heaan.Ciphertext L) :
  heaan.keeps_slots L →
  decrypt_data ciphertext (Some 0%Z) = decrypt_data ciphertext None
  ∧ ∃ v, decrypt_data ciphertext (Some 0%Z) = Ok v
         ∧ v = Py.real <$> heaan.decrypt L ciphertext Message
         ∧ length v = num_slots
         ∧ length v ≠ 0%nat.
Proof.
  intros Hkeep. split; [reflexivity |].
  eexists. split; [| split; [reflexivity |]].
  - unfold HEEngine.decrypt_data, HEEngine.actual_size, Py.range.
    rewrite decide_True by done. rewrite Nat2Z.id.
    rewrite decrypt_data_loop by done.
    by rewrite take_ge by (rewrite Hkeep, length_Message; lia).
  - rewrite length_fmap, Hkeep, length_Message.
    split; [done |]. pose proof num_slots_pos. lia.
Qed.

Lemma calculate_encrypted_sum_cons (c : heaan.Ciphertext L)
    (cs : list (heaan.Ciphertext L)) :
  calculate_encrypted_sum (c :: cs) = Ok (foldl add_encrypted c cs).
Proof.
  unfold HEEngine.calculate_encrypted_sum.
  change (Py.getitem (c :: cs) 0) with (Ok c).
  change (Ok c ≫= ?k) with (k c). cbv beta.
  rewrite (for_each_getitem (c :: cs) add_encrypted) by (simpl; lia).
  simpl. by rewrite Nat.sub_0_r, take_ge.
Qed.

(** C6.  On a non-empty list [calculate_encrypted_sum] returns the left
    fold of [add_encrypted] over the list, started at its first item; on
    the empty list it raises [ValueError] and returns no ciphertext. *)
Theorem calculate_encrypted_sum_fold :
  (∀ (c : heaan.Ciphertext L) (cs : list (heaan.Ciphertext L)),
      calculate_encrypted_sum (c :: cs) = Ok (foldl add_encrypted c cs))
  ∧ calculate_encrypted_sum [] = Raise ValueError.
Proof.
  split; [exact calculate_encrypted_sum_cons | reflexivity].
Qed.

(** C7.  On a non-empty list [calculate_encrypted_average] returns the
    sum of the list multiplied by the constant [1 / len(list)]. *)
Theorem calculate_encrypted_average_spec (l : list (heaan.Ciphertext L)) :
  l ≠ [] →
  ∃ total,
    calculate_encrypted_sum l = Ok total
    ∧ calculate_encrypted_average l
      = Ok (multiply_by_constant total
              (1 / inject_Z (Z.of_nat (length l)))).
Proof.
  intros Hne. destruct l as [|c cs]; [done |].
  exists (foldl add_encrypted c cs).
  split; [apply calculate_encrypted_sum_cons |].
  unfold HEEngine.calculate_encrypted_average.
  by rewrite calculate_encrypted_sum_cons.
Qed.

End engine_facts.

(** ** The engine's own normalisation against the encoder's *)

Section two_normalisations.
Import MusicDataEncoder.



(** [encrypt_revenue_data] encrypts, for a field holding a number, the
    one-item vector of its [normalized_value]. *)
Lemma encrypt_field_number (L : heaan.lib) (log_slots : nat)
    (parse : string → option Q) (rd : gmap string pyval)
    (enc : gmap string (heaan.Ciphertext L)) (field : string) (v : Q) :
  rd !! field = Some (VNum v) →
  HEEngine.encrypt_field L log_slots parse rd enc field
  = (c ← HEEngine.encrypt_data L log_slots
           [HEEngine.normalized_value field v];
     Ok (<[field := c]> enc)).
Proof. intros H. unfold HEEngine.encrypt_field. by rewrite H. Qed.







End two_normalisations.

(** ** The engine on the transparent instance *)

Section plain_runs.

Lemma plain_keeps_slots : heaan.keeps_slots plain.scheme.
Proof.
  intros c msg. simpl. unfold plain.decrypt.
  rewrite length_app, length_take, length_drop. lia.
Defined.

Lemma encrypt_data_capacity_witness :
  HEEngine.encrypt_data plain.scheme 2 [1; 2; 3; 4; 5]%Q = Raise ValueError
  ∧ HEEngine.encrypt_data plain.scheme 2 [0.5; 0.25]%Q
    = Ok [Py.Complex 0.5 0; Py.Complex 0.25 0; Py.Complex 0 0; Py.Complex 0 0].
Proof.
  split.
  - apply (encrypt_data_capacity plain.scheme 2 [1; 2; 3; 4; 5]%Q).
    vm_compute. lia.
  - apply (encrypt_data_capacity plain.scheme 2 [0.5; 0.25]%Q).
    vm_compute. lia.
Defined.

(** Decrypting the encryption of the empty vector with its length, 0,
    as the size gives the four slots of the message, not the empty
    vector. *)
Lemma decrypt_data_size_zero_witness :
  ∃ c, HEEngine.encrypt_data plain.scheme 2 [] = Ok c
       ∧ HEEngine.decrypt_data plain.scheme 2 c (Some (Z.of_nat (length (@nil Q))))
         = Ok [0; 0; 0; 0]%Q.
Proof.
  eexists. split; [reflexivity |].
  destruct (decrypt_data_size_zero plain.scheme 2
              (replicate 4 (Py.Complex 0 0)) plain_keeps_slots)
    as (_ & v & Hv & -> & _).
  exact Hv.
Defined.

Lemma calculate_encrypted_average_spec_witness :
  ∃ total,
    HEEngine.calculate_encrypted_sum plain.scheme
      [[Py.Complex 0.25 0]; [Py.Complex 0.75 0]] = Ok total
    ∧ HEEngine.calculate_encrypted_average plain.scheme
        [[Py.Complex 0.25 0]; [Py.Complex 0.75 0]]
      = Ok (HEEngine.multiply_by_constant plain.scheme total (1 / 2)).
Proof.
  apply (calculate_encrypted_average_spec plain.scheme
           [[Py.Complex 0.25 0]; [Py.Complex 0.75 0]]).
  discriminate.
Defined.

End plain_runs.


(** * Further properties of the encoder *)

(** ** Order and range of the normalisation *)

Section normalisation_order.
Import MusicDataEncoder.

Lemma clip_mono (lo hi v w : Q) :
  (lo <= hi)%Q → (v <= w)%Q →
  (Py.max2 lo (Py.min2 hi v) <= Py.max2 lo (Py.min2 hi w))%Q.
Proof.
  intros Hle Hvw.
  destruct (clip_cases lo hi v Hle) as [[? E1]|[[? E1]|[? E1]]];
    destruct (clip_cases lo hi w Hle) as [[? E2]|[[? E2]|[? E2]]];
    rewrite E1, E2; lra.
Qed.

(** X1.  [normalize_value] never reverses the order of two values of a
    field: a larger input gives a normalised value at least as large. *)
Theorem normalize_value_monotone (f : string) (v w : Q) :
  (v <= w)%Q → (normalize_value v f <= normalize_value w f)%Q.
Proof.
  intros Hvw. unfold normalize_value.
  destruct (normalization_ranges !! f) as [[lo hi]|] eqn:Hf; [| done].
  pose proof (normalization_ranges_width _ _ _ Hf) as Hw.
  pose proof (clip_mono lo hi v w (Qlt_le_weak _ _ Hw) Hvw) as Hc.
  unfold Qdiv. apply Qmult_le_compat_r; [lra |].
  apply Qinv_le_0_compat. lra.
Qed.

Lemma normalize_value_monotone_witness :
  (normalize_value 90 "tempo" <= normalize_value 130 "tempo")%Q
  ∧ (normalize_value 250 "tempo" <= normalize_value 300 "tempo")%Q.
Proof.
  split; apply normalize_value_monotone; discriminate.
Defined.

(** X2.  On a field with a declared range [lo, hi], [denormalize_value]
    sends [0, 1] into [lo, hi], sends 0 to [lo] and 1 to [hi], and never
    reverses the order of two values. *)
Theorem denormalize_value_range (f : string) (lo hi : Q) :
  normalization_ranges !! f = Some (lo, hi) →
  (denormalize_value 0 f == lo)%Q
  ∧ (denormalize_value 1 f == hi)%Q
  ∧ (∀ n : Q, (0 <= n <= 1)%Q → (lo <= denormalize_value n f <= hi)%Q)
  ∧ (∀ n m : Q, (n <= m)%Q → (denormalize_value n f <= denormalize_value m f)%Q).
Proof.
  intros Hf. pose proof (normalization_ranges_width _ _ _ Hf) as Hw.
  split; [| split; [| split]].
  - rewrite (denormalize_value_declared f lo hi) by done. ring.
  - rewrite (denormalize_value_declared f lo hi) by done. ring.
  - intros n Hn. rewrite (denormalize_value_declared f lo hi) by done.
    split; nra.
  - intros n m Hnm. rewrite !(denormalize_value_declared f lo hi) by done.
    nra.
Qed.

Lemma denormalize_value_range_witness :
  (denormalize_value 0 "loudness" == -60)%Q
  ∧ (denormalize_value 1 "loudness" == 0)%Q
  ∧ (∀ n : Q, (0 <= n <= 1)%Q → (-60 <= denormalize_value n "loudness" <= 0)%Q)
  ∧ (∀ n m : Q, (n <= m)%Q →
       (denormalize_value n "loudness" <= denormalize_value m "loudness")%Q).
Proof.
  apply (denormalize_value_range "loudness" (-60) 0). reflexivity.
Defined.

End normalisation_order.

(** ** What [encode_music_data] raises, stores and leaves out *)

Section encode_music_data_facts.
Import MusicDataEncoder.

Lemma for_each_cons {A St} (body : St → A → result St) (s : St) (a : A)
    (l : list A) :
  Py.for_each body s (a :: l) = body s a ≫= λ s', Py.for_each body s' l.
Proof. reflexivity. Qed.

Lemma bind_Ok {A B} (a : A) (k : A → result B) : Ok a ≫= k = k a.
Proof. reflexivity. Qed.

Lemma encode_numeric_number (md : gmap string pyval)
    (d : gmap string (list Q)) (f : string) (q : Q) :
  md !! f = Some (VNum q) →
  encode_numeric md d f = Ok (<[f := [normalize_value q f]]> d).
Proof. intros H. unfold encode_numeric. by rewrite H. Qed.

Lemma encode_numeric_absent (md : gmap string pyval)
    (d : gmap string (list Q)) (f : string) :
  md !! f = None → encode_numeric md d f = Ok d.
Proof. intros H. unfold encode_numeric. by rewrite H. Qed.

(** The loop over the numeric fields either runs to its end, and then no
    field it met holds a string, or stops with [TypeError] at a field that
    holds one. *)
Lemma encode_numeric_loop_cases (md : gmap string pyval) (fs : list string)
    (d0 : gmap string (list Q)) :
  (∃ d, Py.for_each (encode_numeric md) d0 fs = Ok d
        ∧ ∀ f x, f ∈ fs → md !! f = Some x → ∃ q, x = VNum q)
  ∨ (Py.for_each (encode_numeric md) d0 fs = Raise TypeError
     ∧ ∃ f t, f ∈ fs ∧ md !! f = Some (VStr t)).
Proof.
  revert d0. induction fs as [|a fs IH]; intros d0.
  - left. exists d0. split; [done |]. intros f x Hf. by apply elem_of_nil in Hf.
  - rewrite for_each_cons.
    destruct (md !! a) as [[q|t]|] eqn:Ha.
    + rewrite (encode_numeric_number md d0 a q Ha), bind_Ok.
      destruct (IH (<[a:=[normalize_value q a]]> d0))
        as [(d & Hd & Hnum)|(Hd & f & t & Hf & Ht)].
      * left. exists d. split; [done |]. intros f x Hf Hx.
        apply elem_of_cons in Hf as [->|Hf]; [| by eapply Hnum].
        exists q. congruence.
      * right. split; [done |]. exists f, t. split; [| done].
        apply elem_of_cons. by right.
    + right. unfold encode_numeric. rewrite Ha. split; [done |].
      exists a, t. split; [| done]. apply elem_of_cons. by left.
    + rewrite (encode_numeric_absent md d0 a Ha), bind_Ok.
      destruct (IH d0) as [(d & Hd & Hnum)|(Hd & f & t & Hf & Ht)].
      * left. exists d. split; [done |]. intros f x Hf Hx.
        apply elem_of_cons in Hf as [->|Hf]; [congruence | by eapply Hnum].
      * right. split; [done |]. exists f, t. split; [| done].
        apply elem_of_cons. by right.
Qed.

Lemma encode_music_data_cases (now : string) (md : gmap string pyval) :
  ((∃ e, encode_music_data now md = Ok e) ∧ numbers_in_numeric_fields md)
  ∨ (encode_music_data now md = Raise TypeError
     ∧ ∃ f t, f ∈ numeric_fields ∧ md !! f = Some (VStr t)).
Proof.
  destruct (encode_numeric_loop_cases md numeric_fields ∅)
    as [(d & Hd & Hnum)|(Hd & Hbad)].
  - left. split; [| exact Hnum]. by apply encode_music_data_total.
  - right. split; [| done]. unfold encode_music_data. by rewrite Hd.
Qed.

(** X3.  On a record whose values are numbers or strings,
    [encode_music_data] returns exactly when the numeric fields, where
    present, hold numbers; on every other such record, that is when some
    numeric field holds a string, it raises [TypeError], and it raises
    nothing else. *)
Theorem encode_music_data_type_error (now : string) (md : gmap string pyval) :
  ((∃ e, encode_music_data now md = Ok e) ↔ numbers_in_numeric_fields md)
  ∧ (encode_music_data now md = Raise TypeError
     ↔ ∃ f t, f ∈ numeric_fields ∧ md !! f = Some (VStr t))
  ∧ (∀ err, encode_music_data now md = Raise err → err = TypeError).
Proof.
  destruct (encode_music_data_cases now md)
    as [[[e He] Hnum]|[Hraise (f & t & Hf & Ht)]].
  - split; [| split].
    + split; [done | by exists e].
    + split; [congruence |].
      intros (f & t & Hf & Ht). destruct (Hnum f _ Hf Ht) as [q Hq]. done.
    + congruence.
  - split; [| split].
    + split; [intros [e He]; congruence |].
      intros Hnum. destruct (Hnum f _ Hf Ht) as [q Hq]. done.
    + split; [by exists f, t | done].
    + congruence.
Qed.

Lemma encode_music_data_numbers (now : string) (md : gmap string pyval)
    (e : encoded) :
  encode_music_data now md = Ok e → numbers_in_numeric_fields md.
Proof.
  intros He. destruct (encode_music_data_cases now md) as [[_ H]|[H _]];
    [done | congruence].
Qed.

(** The entries under the keys other than ["genre"] and ["period"]. *)
Lemma encode_music_data_lookup (now : string) (md : gmap string pyval)
    (e : encoded) (k : string) :
  encode_music_data now md = Ok e → k ≠ "genre" → k ≠ "period" →
  entries e !! k
  = if decide (k ∈ numeric_fields) then numeric_entry md k else None.
Proof.
  unfold encode_music_data.
  destruct (Py.for_each _ _ _) as [d1|?] eqn:H1; simpl; [| done].
  destruct (encode_labelled md "genre" _ d1) as [d2|?] eqn:H2; simpl; [| done].
  destruct (encode_labelled md "period" _ d2) as [d3|?] eqn:H3; simpl; [| done].
  intros [= <-] Hg Hp. simpl.
  destruct (encode_labelled_spec _ _ _ _ _ H2) as [Hother2 _].
  destruct (encode_labelled_spec _ _ _ _ _ H3) as [Hother3 _].
  rewrite Hother3, Hother2 by done.
  apply (encode_numeric_loop md numeric_fields [] ∅); [| done].
  intros k'. by rewrite lookup_empty.
Qed.

Lemma numeric_fields_declared (f : string) :
  f ∈ numeric_fields → ∃ lo hi, normalization_ranges !! f = Some (lo, hi).
Proof.
  unfold numeric_fields. intros H.
  repeat (apply elem_of_cons in H as [->|H]; [by eexists _, _ |]).
  by apply elem_of_nil in H.
Qed.

Lemma normalize_value_unit (f : string) (v : Q) :
  is_Some (normalization_ranges !! f) → (0 <= normalize_value v f <= 1)%Q.
Proof.
  intros [[lo hi] Hf].
  pose proof (normalization_ranges_width _ _ _ Hf) as Hw.
  rewrite (normalize_value_declared f lo hi) by done.
  apply linear_unit_interval; [done |].
  destruct (clip_cases lo hi v (Qlt_le_weak _ _ Hw)) as [[? E]|[[? E]|[? E]]];
    rewrite E; lra.
Qed.

(** Every slot of a one-hot encoding is 0 or 1. *)
Lemma one_hot_slots (mapping : list (string * nat)) (label : pyval)
    (v : list Q) (x : Q) :
  one_hot mapping label = Ok v → x ∈ v → x = 0%Q ∨ x = 1%Q.
Proof.
  unfold one_hot, Py.setitem.
  destruct (Py.dict_get mapping label) as [i|].
  - destruct (decide _) as [Hi|]; [| done]. intros [= <-] Hx.
    apply list_elem_of_lookup_1 in Hx as [j Hj].
    apply list_lookup_insert_Some in Hj as [(_ & <- & _)|[_ Hj]]; [by right |].
    left. apply lookup_replicate in Hj as [-> _]. done.
  - intros [= <-] Hx. left. by apply elem_of_replicate_inv in Hx.
Qed.

Lemma one_hot_length (mapping : list (string * nat)) (label : pyval)
    (v : list Q) :
  one_hot mapping label = Ok v → length v = length mapping.
Proof.
  unfold one_hot, Py.setitem.
  destruct (Py.dict_get mapping label) as [i|].
  - destruct (decide _); [| done]. intros [= <-].
    by rewrite length_insert, length_replicate.
  - intros [= <-]. by rewrite length_replicate.
Qed.

Lemma encoded_key_iff (now : string) (md : gmap string pyval)
    (e : encoded) (k : string) :
  encode_music_data now md = Ok e →
  (is_Some (entries e !! k)
   ↔ k ∈ numeric_fields ++ ["genre"; "period"] ∧ is_Some (md !! k)).
Proof.
  intros He.
  destruct (encode_music_data_entries now md e He) as (_ & Hgenre & Hperiod).
  pose proof (encode_music_data_numbers now md e He) as Hnum.
  destruct (decide (k = "genre")) as [->|Hg].
  { destruct (md !! "genre") as [l|].
    - destruct Hgenre as (v & _ & ->). split; [| done]. intros _. split; [| done].
      apply elem_of_app. right. apply elem_of_cons. by left.
    - rewrite Hgenre. split; [by intros [? ?] | by intros [_ [? ?]]]. }
  destruct (decide (k = "period")) as [->|Hp].
  { destruct (md !! "period") as [l|].
    - destruct Hperiod as (v & _ & ->). split; [| done]. intros _. split; [| done].
      apply elem_of_app. right. apply elem_of_cons. right.
      apply elem_of_cons. by left.
    - rewrite Hperiod. split; [by intros [? ?] | by intros [_ [? ?]]]. }
  rewrite (encode_music_data_lookup now md e k He Hg Hp).
  destruct (decide (k ∈ numeric_fields)) as [Hk|Hk].
  - unfold numeric_entry. destruct (md !! k) as [x|] eqn:Hx.
    + destruct (Hnum k x Hk Hx) as [q ->]. split; [| done]. intros _.
      split; [| done]. apply elem_of_app. by left.
    + split; [by intros [? ?] | by intros [_ [? ?]]].
  - split; [by intros [? ?] |]. intros [Hin _].
    apply elem_of_app in Hin as [Hin|Hin]; [done |].
    apply elem_of_cons in Hin as [->|Hin]; [done |].
    apply elem_of_cons in Hin as [->|Hin]; [done |].
    by apply elem_of_nil in Hin.
Qed.

(** X4.  The encoding holds an entry exactly for the numeric fields and for
    ["genre"] and ["period"], where the record holds them: no other field of
    the record (the artist identifier, any unlisted key) is ever stored as
    an entry, and no listed field that is present is dropped. *)
Theorem encode_music_data_keys (now : string) (md : gmap string pyval)
    (e : encoded) (k : string) :
  encode_music_data now md = Ok e →
  (is_Some (entries e !! k)
   ↔ k ∈ numeric_fields ++ ["genre"; "period"] ∧ is_Some (md !! k)).
Proof. apply encoded_key_iff. Qed.

Lemma encode_music_data_keys_witness :
  ∃ e, encode_music_data "2024-03-01T09:00:00" test_music_data = Ok e
       ∧ entries e !! "artist_id" = None
       ∧ is_Some (entries e !! "revenue").
Proof.
  eexists. split; [reflexivity |]. split.
  - apply eq_None_not_Some.
    rewrite (encode_music_data_keys "2024-03-01T09:00:00" test_music_data _
               "artist_id" eq_refl).
    intros [Hin _]. vm_compute in Hin.
    repeat (apply elem_of_cons in Hin as [Hin|Hin]; [discriminate |]).
    by apply elem_of_nil in Hin.
  - apply (encode_music_data_keys "2024-03-01T09:00:00" test_music_data _
             "revenue" eq_refl).
    split; [| by eexists]. apply elem_of_cons. by left.
Defined.

(** X5.  Every value [encode_music_data] stores lies in [0, 1]; a numeric
    field is stored as a list of one value, ["genre"] and ["period"] as lists
    of eight. *)
Theorem encode_music_data_unit_interval (now : string)
    (md : gmap string pyval) (e : encoded) (k : string) (l : list Q) :
  encode_music_data now md = Ok e →
  entries e !! k = Some l →
  length l = (if decide (k = "genre" ∨ k = "period") then 8 else 1)%nat
  ∧ ∀ x, x ∈ l → (0 <= x <= 1)%Q.
Proof.
  intros He Hl.
  destruct (encode_music_data_entries now md e He) as (_ & Hgenre & Hperiod).
  assert (Hbit : ∀ x : Q, x = 0%Q ∨ x = 1%Q → (0 <= x <= 1)%Q)
    by (intros x [->| ->]; split; discriminate).
  destruct (decide (k = "genre")) as [->|Hg].
  { rewrite decide_True by auto.
    destruct (md !! "genre") as [lg|]; [| congruence].
    destruct Hgenre as (v & Hv & Hlook).
    assert (v = l) as -> by congruence. split.
    - apply (one_hot_length genre_mapping lg l Hv).
    - intros x Hx. apply Hbit, (one_hot_slots genre_mapping lg l x Hv Hx). }
  destruct (decide (k = "period")) as [->|Hp].
  { rewrite decide_True by auto.
    destruct (md !! "period") as [lp|]; [| congruence].
    destruct Hperiod as (v & Hv & Hlook).
    assert (v = l) as -> by congruence. split.
    - apply (one_hot_length period_mapping lp l Hv).
    - intros x Hx. apply Hbit, (one_hot_slots period_mapping lp l x Hv Hx). }
  rewrite decide_False by tauto.
  rewrite (encode_music_data_lookup now md e k He Hg Hp) in Hl.
  destruct (decide (k ∈ numeric_fields)) as [Hk|Hk]; [| done].
  unfold numeric_entry in Hl. destruct (md !! k) as [[q|t]|]; try done.
  injection Hl as <-. split; [done |].
  intros x Hx. apply list_elem_of_singleton in Hx as ->.
  apply normalize_value_unit.
  destruct (numeric_fields_declared k Hk) as (lo & hi & ->). by eexists.
Qed.

Lemma encode_music_data_unit_interval_witness :
  ∃ e l, encode_music_data "2024-03-01T09:00:00" test_music_data = Ok e
         ∧ entries e !! "loudness" = Some l
         ∧ length l = 1%nat
         ∧ ∀ x, x ∈ l → (0 <= x <= 1)%Q.
Proof.
  eexists _, _. split; [reflexivity |]. split; [reflexivity |].
  apply (encode_music_data_unit_interval "2024-03-01T09:00:00"
           test_music_data _ "loudness" _ eq_refl eq_refl).
Defined.

End encode_music_data_facts.

(** ** Decoding *)

(** Runs the binds whose first computation has returned. *)
Ltac run_binds := repeat (rewrite bind_Ok; cbv beta).
Ltac run_binds_in H := repeat (rewrite bind_Ok in H; cbv beta in H).

Section decode_music_data_facts.
Import MusicDataEncoder.

Lemma decode_numeric_loop (enc : gmap string (list Q)) (fs : list string)
    (d0 : gmap string pyval) (k : string) :
  foldl (decode_numeric enc) d0 fs !! k
  = match (if decide (k ∈ fs) then enc !! k else None) with
    | Some (x :: _) => Some (VNum (denormalize_value x k))
    | _ => d0 !! k
    end.
Proof.
  revert d0. induction fs as [|a fs IH]; intros d0.
  - change (foldl (decode_numeric enc) d0 []) with d0.
    destruct (decide (k ∈ [])) as [H|]; [by apply elem_of_nil in H | done].
  - change (foldl (decode_numeric enc) d0 (a :: fs))
      with (foldl (decode_numeric enc) (decode_numeric enc d0 a) fs).
    rewrite IH. destruct (decide (k = a)) as [->|Hne].
    + rewrite (decide_True (P := a ∈ a :: fs)) by (apply elem_of_cons; by left).
      unfold decode_numeric.
      destruct (decide (a ∈ fs)); destruct (enc !! a) as [[|x l]|]; try done;
        by rewrite lookup_insert_eq.
    + assert (Hk : decode_numeric enc d0 a !! k = d0 !! k).
      { unfold decode_numeric. destruct (enc !! a) as [[|x l]|]; try done.
        by rewrite lookup_insert_ne. }
      rewrite Hk. destruct (decide (k ∈ fs)) as [Hin|Hnin].
      * by rewrite decide_True by (apply elem_of_cons; by right).
      * rewrite decide_False; [done |].
        intros Hin. apply elem_of_cons in Hin as [?|?]; done.
Qed.

Lemma set_period_other (items : list (string * nat)) (i : nat)
    (d : gmap string pyval) (k : string) :
  k ≠ "period" → set_period items i d !! k = d !! k.
Proof.
  intros Hk. induction items as [|[p j] items IH]; simpl; [done |].
  destruct (j =? i)%nat; [by rewrite lookup_insert_ne | done].
Qed.

Lemma set_period_found (i : nat) (d : gmap string pyval) :
  (i < 8)%nat →
  ∃ p, period_mapping !! i = Some (p, i)
       ∧ set_period period_mapping i d = <["period" := VStr p]> d.
Proof.
  intros Hi.
  do 8 (destruct i as [|i]; [eexists; split; reflexivity |]). lia.
Qed.

Lemma set_period_beyond (i : nat) (d : gmap string pyval) :
  (8 <= i)%nat → set_period period_mapping i d = d.
Proof.
  intros Hi. do 8 (destruct i as [|i]; [lia |]). reflexivity.
Qed.

Lemma first_with_index_beyond (i : nat) (fallthrough : string) :
  (8 <= i)%nat → first_with_index genre_mapping i fallthrough = fallthrough.
Proof.
  intros Hi. do 8 (destruct i as [|i]; [lia |]). reflexivity.
Qed.

Lemma update_metadata_other (m : metadata) (d : gmap string pyval) (k : string) :
  k ∉ ["artist_id"; "upload_time"; "original_genre"; "original_period"] →
  update_metadata m d !! k = d !! k.
Proof.
  intros Hk. unfold update_metadata.
  rewrite !lookup_insert_ne; [done | | | |];
    intros <-; apply Hk; repeat (apply elem_of_cons; first [by left | right]).
Qed.

(** The stages of [decode_music_data] on a call that returns. *)
Lemma decode_music_data_inv (enc : gmap string (list Q))
    (mo : option metadata) (dec : gmap string pyval) :
  decode_music_data enc mo = Ok dec →
  ∃ d2 d3,
    match enc !! "genre" with
    | Some v => ∃ g, decode_genre v = Ok g
                     ∧ d2 = <["genre" := VStr g]>
                              (foldl (decode_numeric enc) ∅ numeric_fields)
    | None => d2 = foldl (decode_numeric enc) ∅ numeric_fields
    end
    ∧ match enc !! "period" with
      | Some v => ∃ m i, Py.max_list v = Ok m ∧ Py.index m v = Ok i
                         ∧ d3 = set_period period_mapping i d2
      | None => d3 = d2
      end
    ∧ dec = match mo with Some m => update_metadata m d3 | None => d3 end.
Proof.
  unfold decode_music_data. intros H.
  destruct (enc !! "genre") as [vg|].
  - destruct (decode_genre vg) as [g|?] eqn:Eg; [| done].
    rewrite !bind_Ok in H.
    destruct (enc !! "period") as [vp|].
    + destruct (Py.max_list vp) as [m|?] eqn:Em; [| done]. rewrite bind_Ok in H.
      destruct (Py.index m vp) as [i|?] eqn:Ei; [| done]. rewrite !bind_Ok in H.
      apply Ok_inj in H. eexists _, _. split; [by exists g |].
      split; [by exists m, i | done].
    + rewrite bind_Ok in H. apply Ok_inj in H.
      eexists _, _. split; [by exists g |]. by split.
  - rewrite bind_Ok in H. destruct (enc !! "period") as [vp|].
    + destruct (Py.max_list vp) as [m|?] eqn:Em; [| done]. rewrite bind_Ok in H.
      destruct (Py.index m vp) as [i|?] eqn:Ei; [| done]. rewrite !bind_Ok in H.
      apply Ok_inj in H. eexists _, _. split; [done |].
      split; [by exists m, i | done].
    + rewrite bind_Ok in H. apply Ok_inj in H. eexists _, _. by repeat split.
Qed.

Lemma numeric_fields_not_metadata (f : string) :
  f ∈ numeric_fields →
  f ∉ ["artist_id"; "upload_time"; "original_genre"; "original_period"].
Proof.
  unfold numeric_fields. intros H Hm.
  repeat (apply elem_of_cons in H as [->|H];
          [repeat (apply elem_of_cons in Hm as [Hm|Hm]; [discriminate |]);
           by apply elem_of_nil in Hm |]).
  by apply elem_of_nil in H.
Qed.

Lemma labels_not_metadata (k : string) :
  k = "genre" ∨ k = "period" →
  k ∉ ["artist_id"; "upload_time"; "original_genre"; "original_period"].
Proof.
  intros [->| ->] Hm;
    repeat (apply elem_of_cons in Hm as [Hm|Hm]; [discriminate |]);
    by apply elem_of_nil in Hm.
Qed.

Lemma labels_not_numeric (k : string) :
  k = "genre" ∨ k = "period" → k ∉ numeric_fields.
Proof.
  intros Hk Hin. destruct (numeric_fields_not_labels k Hin). tauto.
Qed.

Lemma decoded_metadata_or_not (mo : option metadata) (d : gmap string pyval)
    (k : string) :
  k ∉ ["artist_id"; "upload_time"; "original_genre"; "original_period"] →
  match mo with Some m => update_metadata m d | None => d end !! k = d !! k.
Proof. intros Hk. destruct mo; [by apply update_metadata_other | done]. Qed.

(** A numeric field is decoded from the first value of its entry, and only
    when the entry is there and not empty. *)
Lemma decode_numeric_field (enc : gmap string (list Q)) (mo : option metadata)
    (dec : gmap string pyval) (f : string) :
  decode_music_data enc mo = Ok dec → f ∈ numeric_fields →
  dec !! f = match enc !! f with
             | Some (x :: _) => Some (VNum (denormalize_value x f))
             | _ => None
             end.
Proof.
  intros H Hf. destruct (numeric_fields_not_labels f Hf) as [Hg Hp].
  destruct (decode_music_data_inv enc mo dec H) as (d2 & d3 & H2 & H3 & ->).
  rewrite decoded_metadata_or_not by by apply numeric_fields_not_metadata.
  assert (d3 !! f = d2 !! f) as ->.
  { destruct (enc !! "period"); [| by subst].
    destruct H3 as (m & i & _ & _ & ->). by apply set_period_other. }
  assert (d2 !! f = foldl (decode_numeric enc) ∅ numeric_fields !! f) as ->.
  { destruct (enc !! "genre"); [| by subst].
    destruct H2 as (g & _ & ->). by rewrite lookup_insert_ne. }
  rewrite decode_numeric_loop, decide_True by done.
  by destruct (enc !! f) as [[|x l]|].
Qed.

Lemma decode_genre_field (enc : gmap string (list Q)) (mo : option metadata)
    (dec : gmap string pyval) :
  decode_music_data enc mo = Ok dec →
  match enc !! "genre" with
  | Some v => ∃ g, decode_genre v = Ok g ∧ dec !! "genre" = Some (VStr g)
  | None => dec !! "genre" = None
  end.
Proof.
  intros H.
  destruct (decode_music_data_inv enc mo dec H) as (d2 & d3 & H2 & H3 & ->).
  rewrite decoded_metadata_or_not by (apply labels_not_metadata; by left).
  assert (d3 !! "genre" = d2 !! "genre") as ->.
  { destruct (enc !! "period"); [| by subst].
    destruct H3 as (m & i & _ & _ & ->). by apply set_period_other. }
  destruct (enc !! "genre") as [v|].
  - destruct H2 as (g & Hg & ->). exists g. by rewrite lookup_insert_eq.
  - subst d2. rewrite decode_numeric_loop, decide_False; [done |].
    apply labels_not_numeric. by left.
Qed.

Lemma decode_period_field (enc : gmap string (list Q)) (mo : option metadata)
    (dec : gmap string pyval) :
  decode_music_data enc mo = Ok dec →
  match enc !! "period" with
  | Some v =>
      ∃ m i, Py.max_list v = Ok m ∧ Py.index m v = Ok i
             ∧ dec !! "period"
               = (if decide (i < 8)%nat
                  then (λ entry, VStr entry.1) <$> period_mapping !! i
                  else None)
  | None => dec !! "period" = None
  end.
Proof.
  intros H.
  destruct (decode_music_data_inv enc mo dec H) as (d2 & d3 & H2 & H3 & ->).
  rewrite decoded_metadata_or_not by (apply labels_not_metadata; by right).
  assert (Hd2 : d2 !! "period" = None).
  { assert (foldl (decode_numeric enc) ∅ numeric_fields !! "period" = None)
      as Hloop.
    { rewrite decode_numeric_loop, decide_False; [done |].
      apply labels_not_numeric. by right. }
    destruct (enc !! "genre"); [| by subst].
    destruct H2 as (g & _ & ->). by rewrite lookup_insert_ne. }
  destruct (enc !! "period") as [v|]; [| by subst].
  destruct H3 as (m & i & Hm & Hi & ->). exists m, i. split; [done |].
  split; [done |]. destruct (decide (i < 8)%nat) as [Hlt|Hge].
  - destruct (set_period_found i d2 Hlt) as (p & -> & ->).
    by rewrite lookup_insert_eq.
  - by rewrite set_period_beyond by lia.
Qed.

Lemma decode_metadata_field (enc : gmap string (list Q)) (m : metadata)
    (dec : gmap string pyval) :
  decode_music_data enc (Some m) = Ok dec →
  dec !! "artist_id" = Some (artist_id m)
  ∧ dec !! "upload_time" = Some (VStr (upload_time m))
  ∧ dec !! "original_genre" = Some (original_genre m)
  ∧ dec !! "original_period" = Some (original_period m).
Proof.
  intros H.
  destruct (decode_music_data_inv enc (Some m) dec H) as (d2 & d3 & _ & _ & ->).
  unfold update_metadata. repeat split.
  - do 3 (rewrite lookup_insert_ne by done). by rewrite lookup_insert_eq.
  - do 2 (rewrite lookup_insert_ne by done). by rewrite lookup_insert_eq.
  - rewrite lookup_insert_ne by done. by rewrite lookup_insert_eq.
  - by rewrite lookup_insert_eq.
Qed.

(** [decode_genre] returns on every non-empty vector. *)
Lemma decode_genre_total (v : list Q) :
  v ≠ [] → ∃ m i, Py.max_list v = Ok m ∧ Py.index m v = Ok i
                  ∧ decode_genre v = Ok (first_with_index genre_mapping i "Unknown").
Proof.
  intros Hne. destruct (max_list_spec v Hne) as (m & Hm & Hin & _).
  destruct (index_found m v Hin) as (i & Hi & _).
  exists m, i. split; [done |]. split; [done |]. by apply (decode_genre_at v m i).
Qed.

Lemma decode_music_data_total (enc : gmap string (list Q))
    (mo : option metadata) :
  enc !! "genre" ≠ Some [] → enc !! "period" ≠ Some [] →
  ∃ dec, decode_music_data enc mo = Ok dec.
Proof.
  intros Hg Hp. unfold decode_music_data.
  destruct (enc !! "genre") as [vg|].
  - destruct (decode_genre_total vg) as (m & i & _ & _ & ->); [congruence |].
    destruct (enc !! "period") as [vp|].
    + destruct (decode_genre_total vp) as (m' & i' & -> & Hi & _); [congruence |].
      run_binds. rewrite Hi. run_binds. by eexists.
    + run_binds. by eexists.
  - destruct (enc !! "period") as [vp|].
    + destruct (decode_genre_total vp) as (m' & i' & -> & Hi & _); [congruence |].
      run_binds. rewrite Hi. run_binds. by eexists.
    + run_binds. by eexists.
Qed.

(** X6.  [decode_music_data] fails only on an empty ["genre"] or ["period"]
    vector, and then with the [ValueError] of [max] on an empty list; on every
    other input it returns.  An empty or missing numeric entry is no error. *)
Theorem decode_music_data_errors (enc : gmap string (list Q))
    (mo : option metadata) :
  ((∃ dec, decode_music_data enc mo = Ok dec)
   ↔ enc !! "genre" ≠ Some [] ∧ enc !! "period" ≠ Some [])
  ∧ (decode_music_data enc mo = Raise ValueError
     ↔ enc !! "genre" = Some [] ∨ enc !! "period" = Some []).
Proof.
  assert (Hbad : enc !! "genre" = Some [] ∨ enc !! "period" = Some [] →
                 decode_music_data enc mo = Raise ValueError).
  { intros Hempty. unfold decode_music_data.
    destruct (enc !! "genre") as [[|x vg]|] eqn:Eg; [done | |].
    - destruct Hempty as [?|Hp]; [done |].
      destruct (decode_genre_total (x :: vg)) as (m & i & _ & _ & ->); [done |].
      run_binds. by rewrite Hp.
    - destruct Hempty as [?|Hp]; [done |]. run_binds. by rewrite Hp. }
  assert (Hcases : (enc !! "genre" ≠ Some [] ∧ enc !! "period" ≠ Some [])
                   ∨ (enc !! "genre" = Some [] ∨ enc !! "period" = Some [])).
  { destruct (enc !! "genre") as [[|? ?]|]; destruct (enc !! "period") as [[|? ?]|];
      first [by left | right; by left | right; by right]. }
  split.
  - split.
    + intros [dec Hdec]. destruct Hcases as [?|Hempty]; [done |].
      rewrite (Hbad Hempty) in Hdec. done.
    + intros [Hg Hp]. by apply decode_music_data_total.
  - split; [| exact Hbad].
    intros Hraise. destruct Hcases as [[Hg Hp]|?]; [| done].
    destruct (decode_music_data_total enc mo Hg Hp) as [dec Hdec]. congruence.
Qed.

Lemma one_hot_first_maximum (n i : nat) :
  (i < n)%nat → first_maximum (<[i:=1%Q]> (replicate n 0%Q)) i.
Proof.
  intros Hi. exists 1%Q. split; [| split].
  - apply list_lookup_insert_eq. by rewrite length_replicate.
  - intros j x Hj.
    apply list_lookup_insert_Some in Hj as [(_ & <- & _)|[_ Hj]]; [done |].
    apply lookup_replicate in Hj as [-> _]. done.
  - intros j x Hlt Hj. rewrite list_lookup_insert_ne in Hj by lia.
    apply lookup_replicate in Hj as [-> _]. done.
Qed.

Lemma zeros_first_maximum (n : nat) :
  (0 < n)%nat → first_maximum (replicate n 0%Q) 0.
Proof.
  intros Hn. exists 0%Q. split; [| split].
  - by apply lookup_replicate_2.
  - intros j x Hj. apply lookup_replicate in Hj as [-> _]. done.
  - intros j x Hlt. lia.
Qed.

(** The position [max] and [index] compute is the first maximum. *)
Lemma argmax_unique (v : list Q) (i j : nat) (m : Q) :
  first_maximum v i → Py.max_list v = Ok m → Py.index m v = Ok j → j = i.
Proof.
  intros Hfirst Hm Hj.
  destruct (argmax_first_maximum v i Hfirst) as (m' & Hm' & Hi). congruence.
Qed.

(** The first maximum of the encoding of a label: the label's index when it
    is listed, 0 when it is not. *)
Lemma one_hot_argmax (mapping : list (string * nat)) (label : pyval)
    (v : list Q) :
  (0 < length mapping)%nat →
  one_hot mapping label = Ok v →
  first_maximum v (default 0%nat (Py.dict_get mapping label)).
Proof.
  intros Hpos. unfold one_hot, Py.setitem.
  destruct (Py.dict_get mapping label) as [i|]; simpl.
  - destruct (decide _) as [Hi|]; [| done]. intros [= <-].
    rewrite length_replicate in Hi. by apply one_hot_first_maximum.
  - intros [= <-]. by apply zeros_first_maximum.
Qed.

Lemma encoded_label_nonempty (now : string) (md : gmap string pyval)
    (e : encoded) :
  encode_music_data now md = Ok e →
  entries e !! "genre" ≠ Some [] ∧ entries e !! "period" ≠ Some [].
Proof.
  intros He.
  destruct (encode_music_data_entries now md e He) as (_ & Hg & Hp).
  split.
  - destruct (md !! "genre") as [l|]; [| congruence].
    destruct Hg as (v & Hv & ->). intros [= ->].
    by apply (one_hot_length genre_mapping) in Hv.
  - destruct (md !! "period") as [l|]; [| congruence].
    destruct Hp as (v & Hv & ->). intros [= ->].
    by apply (one_hot_length period_mapping) in Hv.
Qed.

(** X7.  Decoding the encoding of a record always succeeds, and for every
    numeric field the record holds it gives a value of the field's declared
    range: the lower bound when the record's value was below the range, the
    upper bound when it was above; a numeric field the record lacks is
    absent from the result. *)
Theorem decode_encode_numeric (now : string) (md : gmap string pyval)
    (e : encoded) :
  encode_music_data now md = Ok e →
  ∃ dec,
    decode_music_data (entries e) (Some (meta e)) = Ok dec
    ∧ ∀ f, f ∈ numeric_fields →
        (md !! f = None → dec !! f = None)
        ∧ (∀ x, md !! f = Some (VNum x) →
             ∃ y lo hi,
               normalization_ranges !! f = Some (lo, hi)
               ∧ dec !! f = Some (VNum y)
               ∧ (lo <= y <= hi)%Q
               ∧ ((x < lo)%Q → (y == lo)%Q)
               ∧ ((hi < x)%Q → (y == hi)%Q)).
Proof.
  intros He. destruct (encoded_label_nonempty now md e He) as [Hg Hp].
  destruct (decode_music_data_total (entries e) (Some (meta e)) Hg Hp)
    as [dec Hdec].
  exists dec. split; [done |]. intros f Hf.
  destruct (encode_music_data_entries now md e He) as (Hnum & _ & _).
  rewrite (decode_numeric_field _ _ _ f Hdec Hf), (Hnum f Hf).
  unfold numeric_entry. split.
  - by intros ->.
  - intros x ->. destruct (numeric_fields_declared f Hf) as (lo & hi & Hr).
    pose proof (normalization_ranges_width _ _ _ Hr) as Hw.
    exists (denormalize_value (normalize_value x f) f), lo, hi.
    split; [done |]. split; [done |].
    assert (Hback : (denormalize_value (normalize_value x f) f
                     == Py.max2 lo (Py.min2 hi x))%Q).
    { rewrite (denormalize_value_declared f lo hi) by done.
      rewrite (normalize_value_declared f lo hi) by done.
      by apply linear_roundtrip. }
    rewrite Hback.
    destruct (clip_cases lo hi x (Qlt_le_weak _ _ Hw)) as [[? E]|[[? E]|[? E]]];
      rewrite E; (split; [lra |]); split; intros; lra.
Qed.

Lemma decode_encode_numeric_witness :
  ∃ e dec,
    encode_music_data "2024-03-01T09:00:00" unlisted_music_data = Ok e
    ∧ decode_music_data (entries e) (Some (meta e)) = Ok dec
    ∧ dec !! "revenue" = None
    ∧ ∃ y, dec !! "tempo" = Some (VNum y) ∧ (y == 200)%Q.
Proof.
  eexists.
  destruct (decode_encode_numeric "2024-03-01T09:00:00" unlisted_music_data
              _ eq_refl) as (dec & Hdec & Hfields).
  exists dec. split; [reflexivity |]. split; [exact Hdec |]. split.
  - apply (Hfields "revenue").
    + apply elem_of_cons. by left.
    + reflexivity.
  - destruct (Hfields "tempo") as [_ Htempo].
    { unfold numeric_fields.
      repeat (apply elem_of_cons; first [by left | right]). }
    destruct (Htempo 250%Q eq_refl)
      as (y & lo & hi & Hr & Hy & _ & _ & Habove).
    exists y. split; [exact Hy |].
    vm_compute in Hr. injection Hr as <- <-. apply Habove. reflexivity.
Defined.

(** X8.  Through encoding and decoding, a listed genre or period comes back
    as itself; a genre that is not listed comes back as ["Pop"] and a period
    that is not listed as ["2024-Q1"], the labels of index 0; the label the
    record held is kept under ["original_genre"] and ["original_period"]. *)
Theorem decode_encode_labels (now : string) (md : gmap string pyval)
    (e : encoded) (dec : gmap string pyval) :
  encode_music_data now md = Ok e →
  decode_music_data (entries e) (Some (meta e)) = Ok dec →
  (∀ s i, md !! "genre" = Some (VStr s) →
          Py.assoc s genre_mapping = Some i → dec !! "genre" = Some (VStr s))
  ∧ (∀ label, md !! "genre" = Some label →
              Py.dict_get genre_mapping label = None →
              dec !! "genre" = Some (VStr "Pop"))
  ∧ (∀ s i, md !! "period" = Some (VStr s) →
            Py.assoc s period_mapping = Some i → dec !! "period" = Some (VStr s))
  ∧ (∀ label, md !! "period" = Some label →
              Py.dict_get period_mapping label = None →
              dec !! "period" = Some (VStr "2024-Q1"))
  ∧ dec !! "original_genre" = Some (default (VStr "") (md !! "genre"))
  ∧ dec !! "original_period" = Some (default (VStr "") (md !! "period")).
Proof.
  intros He Hdec.
  destruct (encode_music_data_entries now md e He) as (_ & Hg & Hp).
  pose proof (decode_genre_field _ _ _ Hdec) as Hdg.
  pose proof (decode_period_field _ _ _ Hdec) as Hdp.
  destruct (decode_metadata_field _ _ _ Hdec) as (_ & _ & Hog & Hop).
  assert (Hmeta : meta e
                  = {| artist_id := get_or_empty md "artist_id";
                       upload_time := now;
                       original_genre := get_or_empty md "genre";
                       original_period := get_or_empty md "period" |}).
  { revert He. unfold encode_music_data.
    destruct (Py.for_each _ _ _) as [d1|?]; simpl; [| done].
    destruct (encode_labelled md "genre" _ d1) as [d2|?]; simpl; [| done].
    destruct (encode_labelled md "period" _ d2) as [d3|?]; simpl; [| done].
    by intros [= <-]. }
  assert (Hgenre : ∀ label, md !! "genre" = Some label →
            dec !! "genre"
            = Some (VStr (first_with_index genre_mapping
                            (default 0%nat (Py.dict_get genre_mapping label))
                            "Unknown"))).
  { intros label Hl. rewrite Hl in Hg. destruct Hg as (v & Hv & Hlook).
    rewrite Hlook in Hdg. destruct Hdg as (g & Hdv & ->). do 2 f_equal.
    assert (Hfirst := one_hot_argmax genre_mapping label v
                        ltac:(simpl; lia) Hv).
    destruct (argmax_first_maximum v _ Hfirst) as (m & Hm & Hi).
    rewrite (decode_genre_at v m _ Hm Hi) in Hdv. congruence. }
  assert (Hperiod : ∀ label, md !! "period" = Some label →
            ∃ i, i = default 0%nat (Py.dict_get period_mapping label)
                 ∧ dec !! "period"
                   = (if decide (i < 8)%nat
                      then (λ entry, VStr entry.1) <$> period_mapping !! i
                      else None)).
  { intros label Hl. rewrite Hl in Hp. destruct Hp as (v & Hv & Hlook).
    rewrite Hlook in Hdp. destruct Hdp as (m & i & Hm & Hi & ->).
    assert (Hfirst := one_hot_argmax period_mapping label v
                        ltac:(simpl; lia) Hv).
    rewrite (argmax_unique v _ i m Hfirst Hm Hi). by eexists. }
  split; [| split; [| split; [| split; [| split]]]].
  - intros s i Hs Hi. rewrite (Hgenre _ Hs).
    change (Py.dict_get genre_mapping (VStr s)) with (Py.assoc s genre_mapping).
    rewrite Hi. change (default 0%nat (Some i)) with i.
    destruct (genre_mapping_elem s i (assoc_Some_elem _ _ _ Hi)) as [Hlt Hat].
    destruct (first_with_index_genre i "Unknown" Hlt) as (g & Hat' & ->).
    congruence.
  - intros label Hl Hnone. rewrite (Hgenre _ Hl), Hnone. reflexivity.
  - intros s i Hs Hi. destruct (Hperiod _ Hs) as (j & -> & ->).
    change (Py.dict_get period_mapping (VStr s)) with (Py.assoc s period_mapping).
    rewrite Hi. change (default 0%nat (Some i)) with i.
    destruct (period_mapping_elem s i (assoc_Some_elem _ _ _ Hi)) as [Hlt Hat].
    by rewrite decide_True, Hat by done.
  - intros label Hl Hnone. destruct (Hperiod _ Hl) as (j & -> & ->).
    rewrite Hnone. reflexivity.
  - by rewrite Hog, Hmeta.
  - by rewrite Hop, Hmeta.
Qed.

Lemma decode_encode_labels_witness :
  ∃ e dec,
    encode_music_data "2024-03-01T09:00:00" unlisted_music_data = Ok e
    ∧ decode_music_data (entries e) (Some (meta e)) = Ok dec
    ∧ dec !! "genre" = Some (VStr "Pop")
    ∧ dec !! "period" = Some (VStr "2024-Q1")
    ∧ dec !! "original_genre" = Some (VStr "Metal").
Proof.
  eexists _, _. split; [reflexivity |]. split; [reflexivity |].
  destruct (decode_encode_labels "2024-03-01T09:00:00" unlisted_music_data
              _ _ eq_refl eq_refl) as (_ & Hg & _ & Hp & Hog & _).
  split; [| split].
  - apply (Hg (VStr "Metal")); reflexivity.
  - apply (Hp (VStr "2025-Q1")); reflexivity.
  - exact Hog.
Defined.

(** X9.  [decode_music_data] decodes the period as the period whose index
    is the first position at which the ["period"] vector is largest, whether
    or not the same largest value occurs again later. *)
Theorem decode_period_lowest_tie (enc : gmap string (list Q))
    (mo : option metadata) (dec : gmap string pyval) (v : list Q) (i : nat)
    (p : string) :
  decode_music_data enc mo = Ok dec →
  enc !! "period" = Some v →
  first_maximum v i →
  Py.assoc p period_mapping = Some i →
  dec !! "period" = Some (VStr p).
Proof.
  intros Hdec Hv Hfirst Hp.
  pose proof (decode_period_field _ _ _ Hdec) as Hdp. rewrite Hv in Hdp.
  destruct Hdp as (m & j & Hm & Hj & ->).
  rewrite (argmax_unique v i j m Hfirst Hm Hj).
  destruct (period_mapping_elem p i (assoc_Some_elem _ _ _ Hp)) as [Hlt Hat].
  by rewrite decide_True, Hat by done.
Qed.

Lemma decode_period_lowest_tie_witness :
  ∃ dec,
    decode_music_data {["period" := [0; 0; 1; 0; 1; 1; 0; 0]%Q]} None = Ok dec
    ∧ dec !! "period" = Some (VStr "2024-Q3").
Proof.
  eexists. split; [reflexivity |].
  apply (decode_period_lowest_tie {["period" := [0; 0; 1; 0; 1; 1; 0; 0]%Q]}
           None _ [0; 0; 1; 0; 1; 1; 0; 0]%Q 2 "2024-Q3");
    [reflexivity | reflexivity | | reflexivity].
  exists 1%Q. split; [reflexivity |]. split.
  - intros j x Hj.
    do 8 (destruct j as [|j]; [injection Hj as <-; discriminate |]).
    discriminate.
  - intros j x Hlt Hj.
    do 2 (destruct j as [|j]; [injection Hj as <-; reflexivity |]). lia.
Defined.

(** X10.  When the first maximum of a vector lies at a position that has no
    label (index 8 or more, possible only for a vector longer than the
    enumeration), the genre is decoded as ["Unknown"] but the period is left
    out of the result: the two decodings do not fall through alike. *)
Theorem decode_beyond_enumeration (enc : gmap string (list Q))
    (mo : option metadata) (dec : gmap string pyval) :
  decode_music_data enc mo = Ok dec →
  (∀ v i, enc !! "genre" = Some v → first_maximum v i → (8 <= i)%nat →
          dec !! "genre" = Some (VStr "Unknown"))
  ∧ (∀ v i, enc !! "period" = Some v → first_maximum v i → (8 <= i)%nat →
            dec !! "period" = None).
Proof.
  intros Hdec. split.
  - intros v i Hv Hfirst Hi.
    pose proof (decode_genre_field _ _ _ Hdec) as Hdg. rewrite Hv in Hdg.
    destruct Hdg as (g & Hg & ->).
    destruct (argmax_first_maximum v i Hfirst) as (m & Hm & Hidx).
    rewrite (decode_genre_at v m i Hm Hidx) in Hg.
    rewrite first_with_index_beyond in Hg by done. congruence.
  - intros v i Hv Hfirst Hi.
    pose proof (decode_period_field _ _ _ Hdec) as Hdp. rewrite Hv in Hdp.
    destruct Hdp as (m & j & Hm & Hj & ->).
    rewrite (argmax_unique v i j m Hfirst Hm Hj).
    by rewrite decide_False by lia.
Qed.

Lemma overlong_first_maximum :
  first_maximum [0; 0; 0; 0; 0; 0; 0; 0; 1]%Q 8.
Proof.
  exists 1%Q. split; [reflexivity |]. split.
  - intros j x Hj.
    do 9 (destruct j as [|j]; [injection Hj as <-; discriminate |]).
    discriminate.
  - intros j x Hlt Hj.
    do 8 (destruct j as [|j]; [injection Hj as <-; reflexivity |]). lia.
Defined.

Lemma decode_beyond_enumeration_witness :
  ∃ dec,
    decode_music_data overlong_encoded_data None = Ok dec
    ∧ dec !! "genre" = Some (VStr "Unknown")
    ∧ dec !! "period" = None.
Proof.
  eexists. split; [reflexivity |].
  destruct (decode_beyond_enumeration overlong_encoded_data None _ eq_refl)
    as [Hg Hp].
  split.
  - apply (Hg [0; 0; 0; 0; 0; 0; 0; 0; 1]%Q 8%nat);
      [reflexivity | exact overlong_first_maximum | lia].
  - apply (Hp [0; 0; 0; 0; 0; 0; 0; 0; 1]%Q 8%nat);
      [reflexivity | exact overlong_first_maximum | lia].
Defined.

End decode_music_data_facts.

(** ** More on the feature vector *)

Section feature_vector_invariants.
Import MusicDataEncoder.

Lemma scalar_slot_unit (md : gmap string pyval) (f : string) :
  f ∈ feature_order → (0 <= scalar_slot md f <= 1)%Q.
Proof.
  intros Hf. unfold scalar_slot.
  destruct (md !! f) as [[x|t]|]; try (split; discriminate).
  apply normalize_value_unit.
  destruct (numeric_fields_declared f (feature_order_numeric f Hf))
    as (lo & hi & ->).
  by eexists.
Qed.

(** X11.  Every slot of the vector [create_feature_vector] returns lies in
    [0, 1], whatever values the record holds. *)
Theorem create_feature_vector_unit_interval (now : string)
    (md : gmap string pyval) (v : list Q) (x : Q) :
  create_feature_vector now md = Ok v → x ∈ v → (0 <= x <= 1)%Q.
Proof.
  intros Hv Hx.
  destruct (create_feature_vector_spec now md v Hv) as (g & p & -> & Hg & Hp).
  assert (Hbit : ∀ y : Q, y = 0%Q ∨ y = 1%Q → (0 <= y <= 1)%Q)
    by (intros y [->| ->]; split; discriminate).
  apply elem_of_app in Hx as [Hx|Hx]; [| apply elem_of_app in Hx as [Hx|Hx]].
  - apply list_elem_of_fmap in Hx as (f & -> & Hf). by apply scalar_slot_unit.
  - apply Hbit. destruct (md !! "genre") as [l|].
    + apply (one_hot_slots genre_mapping l g x Hg Hx).
    + subst g. left. by apply elem_of_replicate_inv in Hx.
  - apply Hbit. destruct (md !! "period") as [l|].
    + apply (one_hot_slots period_mapping l p x Hp Hx).
    + subst p. left. by apply elem_of_replicate_inv in Hx.
Qed.

Lemma create_feature_vector_unit_interval_witness :
  ∃ v, create_feature_vector "2024-03-01T09:00:00" unlisted_music_data = Ok v
       ∧ ∀ x, x ∈ v → (0 <= x <= 1)%Q.
Proof.
  eexists. split; [reflexivity |]. intros x.
  apply (create_feature_vector_unit_interval "2024-03-01T09:00:00"
           unlisted_music_data _ x eq_refl).
Defined.

(** X12.  The feature vector depends only on the ten scalar features, the
    genre and the period: two records that agree on these give the same
    vector, at whatever time they are encoded and whatever revenue, song
    count, artist identifier or other fields they hold. *)
Theorem create_feature_vector_relevant_fields (now now' : string)
    (md md' : gmap string pyval) (v : list Q) :
  (∀ k, k ∈ feature_order ++ ["genre"; "period"] → md !! k = md' !! k) →
  numbers_in_numeric_fields md' →
  create_feature_vector now md = Ok v →
  create_feature_vector now' md' = Ok v.
Proof.
  intros Hsame Hnum' Hv.
  destruct (encode_music_data_total now' md' Hnum') as [e' He'].
  assert (∃ v', create_feature_vector now' md' = Ok v') as [v' Hv'].
  { unfold create_feature_vector. rewrite He'. by eexists. }
  rewrite Hv'. f_equal.
  destruct (create_feature_vector_spec now md v Hv) as (g & p & -> & Hg & Hp).
  destruct (create_feature_vector_spec now' md' v' Hv')
    as (g' & p' & -> & Hg' & Hp').
  assert (Hin : ∀ k, k ∈ ["genre"; "period"] →
                     k ∈ feature_order ++ ["genre"; "period"])
    by (intros k Hk; apply elem_of_app; by right).
  rewrite <- (Hsame "genre") in Hg'
    by (apply Hin, elem_of_cons; by left).
  rewrite <- (Hsame "period") in Hp'
    by (apply Hin, elem_of_cons; right; apply elem_of_cons; by left).
  assert (g' = g) as ->
    by (destruct (md !! "genre"); congruence).
  assert (p' = p) as ->
    by (destruct (md !! "period"); congruence).
  f_equal. apply list_fmap_ext. intros i f Hf. unfold scalar_slot.
  rewrite (Hsame f); [done |].
  apply elem_of_app. left. by eapply list_elem_of_lookup_2.
Qed.

End feature_vector_invariants.

(** ** Batch encoding *)

Section batch_encode_facts.
Import MusicDataEncoder.

(** Appending the entries of one encoding to the columns built so far. *)
Lemma map_fold_batch_append (m : gmap string (list Q))
    (b : gmap string (list (list Q))) (k : string) :
  map_fold batch_append b m !! k
  = match m !! k with
    | Some v => Some (default [] (b !! k) ++ [v])
    | None => b !! k
    end.
Proof.
  revert k.
  apply (map_fold_weak_ind
           (λ r m, ∀ k, r !! k = match m !! k with
                                 | Some v => Some (default [] (b !! k) ++ [v])
                                 | None => b !! k
                                 end)).
  - intros k. by rewrite lookup_empty.
  - intros i x m' r Hi IH k. unfold batch_append.
    destruct (decide (k = i)) as [->|Hne].
    + rewrite !lookup_insert_eq. by rewrite IH, Hi.
    + rewrite !lookup_insert_ne by done. apply IH.
Qed.

Lemma batch_record_eq (clock : nat → string) (n : nat)
    (b : gmap string (list (list Q))) (md : gmap string pyval) :
  batch_record clock (n, b) md
  = encode_music_data (clock n) md
    ≫= λ e, Ok (S n, map_fold batch_append b (entries e)).
Proof. reflexivity. Qed.

(** The column a list of encodings contributes under a key. *)
Lemma batch_loop (clock : nat → string) (records : list (gmap string pyval))
    (n n' : nat) (b0 b : gmap string (list (list Q))) :
  Py.for_each (batch_record clock) (n, b0) records = Ok (n', b) →
  ∃ encs,
    Forall2 (λ md e, ∃ now, encode_music_data now md = Ok e) records encs
    ∧ ∀ k, b !! k = match omap (λ e, entries e !! k) encs with
                    | [] => b0 !! k
                    | col => Some (default [] (b0 !! k) ++ col)
                    end.
Proof.
  revert n b0. induction records as [|md records IH]; intros n b0 H.
  - apply Ok_inj in H. assert (b = b0) as -> by congruence.
    exists []. split; [constructor | by intros k].
  - rewrite for_each_cons, batch_record_eq in H.
    destruct (encode_music_data (clock n) md) as [e|?] eqn:He;
      [| by simpl in H].
    run_binds_in H.
    destruct (IH _ _ H) as (encs & Hall & Hcols).
    exists (e :: encs). split; [constructor; [by eexists | done] |].
    intros k. rewrite Hcols, map_fold_batch_append.
    assert (omap (λ e0, entries e0 !! k) (e :: encs)
            = match entries e !! k with
              | Some v => v :: omap (λ e0, entries e0 !! k) encs
              | None => omap (λ e0, entries e0 !! k) encs
              end) as -> by reflexivity.
    destruct (entries e !! k) as [v|]; [| done].
    destruct (omap _ encs) as [|c col]; [done |].
    simpl. by rewrite <- app_assoc.
Qed.

Lemma batch_encode_inv (clock : nat → string)
    (records : list (gmap string pyval)) (b : gmap string (list (list Q))) :
  batch_encode clock records = Ok b →
  ∃ encs,
    Forall2 (λ md e, ∃ now, encode_music_data now md = Ok e) records encs
    ∧ ∀ k, b !! k = match omap (λ e, entries e !! k) encs with
                    | [] => None
                    | col => Some col
                    end.
Proof.
  unfold batch_encode.
  destruct (Py.for_each _ _ _) as [[n' b']|?] eqn:H; [| done].
  intros Hb. apply Ok_inj in Hb. simpl in Hb. subst b'.
  destruct (batch_loop clock records 0 n' ∅ b H) as (encs & Hall & Hcols).
  exists encs. split; [done |]. intros k. rewrite Hcols, lookup_empty.
  by destruct (omap _ encs).
Qed.

(** X13.  [batch_encode] groups the encodings by key: the column under a
    key lists, in the order of the records, the entries of the records that
    have one under that key, and a key no record has an entry for is absent.
    The ['metadata'] blocks are not part of the result. *)
Theorem batch_encode_columns (clock : nat → string)
    (records : list (gmap string pyval)) (b : gmap string (list (list Q))) :
  batch_encode clock records = Ok b →
  ∃ encs,
    Forall2 (λ md e, ∃ now, encode_music_data now md = Ok e) records encs
    ∧ ∀ k, b !! k = match omap (λ e, entries e !! k) encs with
                    | [] => None
                    | col => Some col
                    end.
Proof. apply batch_encode_inv. Qed.

Lemma batch_encode_columns_witness :
  ∃ b encs,
    batch_encode (λ _, "2024-03-01T09:00:00")
      [test_music_data; sparse_music_data] = Ok b
    ∧ Forall2 (λ md e, ∃ now, encode_music_data now md = Ok e)
        [test_music_data; sparse_music_data] encs
    ∧ ∀ k, b !! k = match omap (λ e, entries e !! k) encs with
                    | [] => None
                    | col => Some col
                    end.
Proof.
  eexists.
  destruct (batch_encode_columns (λ _, "2024-03-01T09:00:00")
              [test_music_data; sparse_music_data] _ eq_refl)
    as (encs & Hall & Hcols).
  exists encs. split; [reflexivity |]. by split.
Defined.

(** X14.  The column [batch_encode] builds under a numeric field, ["genre"]
    or ["period"] has one item per record holding that key, not one per
    record: when records lack a key, the columns have different lengths and
    their positions no longer identify the record. *)
Theorem batch_encode_column_length (clock : nat → string)
    (records : list (gmap string pyval)) (b : gmap string (list (list Q)))
    (k : string) :
  batch_encode clock records = Ok b →
  k ∈ numeric_fields ++ ["genre"; "period"] →
  length (default [] (b !! k))
  = length (filter (λ md, is_Some (md !! k)) records).
Proof.
  intros Hb Hk.
  destruct (batch_encode_inv clock records b Hb) as (encs & Hall & Hcols).
  assert (default [] (b !! k) = omap (λ e, entries e !! k) encs) as ->.
  { rewrite Hcols. by destruct (omap _ encs). }
  clear Hcols Hb. induction Hall as [|md e records encs [now He] Hall IH].
  - done.
  - pose proof (encoded_key_iff now md e k He) as Hiff.
    assert (omap (λ e0, entries e0 !! k) (e :: encs)
            = match entries e !! k with
              | Some v => v :: omap (λ e0, entries e0 !! k) encs
              | None => omap (λ e0, entries e0 !! k) encs
              end) as -> by reflexivity.
    destruct (entries e !! k) as [v|] eqn:Hv.
    + rewrite filter_cons_True by (apply Hiff; by eexists).
      cbn [length]. by rewrite IH.
    + rewrite filter_cons_False; [done |].
      intros Hmd. destruct (proj2 Hiff (conj Hk Hmd)) as [? ?]. done.
Qed.

Lemma batch_encode_column_length_witness :
  ∃ b,
    batch_encode (λ _, "2024-03-01T09:00:00")
      [test_music_data; sparse_music_data] = Ok b
    ∧ length (default [] (b !! "tempo")) = 2%nat
    ∧ length (default [] (b !! "revenue")) = 1%nat.
Proof.
  eexists. split; [reflexivity |]. split.
  - rewrite (batch_encode_column_length (λ _, "2024-03-01T09:00:00")
               [test_music_data; sparse_music_data] _ "tempo" eq_refl);
      [reflexivity |].
    unfold numeric_fields. apply elem_of_app. left.
    repeat (apply elem_of_cons; first [by left | right]).
  - rewrite (batch_encode_column_length (λ _, "2024-03-01T09:00:00")
               [test_music_data; sparse_music_data] _ "revenue" eq_refl);
      [reflexivity |].
    apply elem_of_app. left. apply elem_of_cons. by left.
Defined.

(** The loop of [batch_encode] either handles every record, all of them
    well typed, or stops with [TypeError] at a record that is not. *)
Lemma batch_loop_cases (clock : nat → string)
    (records : list (gmap string pyval))
    (state : nat * gmap string (list (list Q))) :
  ((∃ state', Py.for_each (batch_record clock) state records = Ok state')
   ∧ Forall numbers_in_numeric_fields records)
  ∨ (Py.for_each (batch_record clock) state records = Raise TypeError
     ∧ Exists (λ md, ∃ f t, f ∈ numeric_fields ∧ md !! f = Some (VStr t))
         records).
Proof.
  revert state. induction records as [|md records IH]; intros [n b0].
  - left. split; [by eexists | constructor].
  - rewrite for_each_cons, batch_record_eq.
    destruct (encode_music_data_cases (clock n) md)
      as [[[e He] Hnum]|[Hraise Hbad]].
    + rewrite He. run_binds.
      destruct (IH (S n, map_fold batch_append b0 (entries e)))
        as [[Hok Hall]|[Hraise Hex]].
      * left. split; [done | by constructor].
      * right. split; [done | by apply Exists_cons_tl].
    + right. rewrite Hraise. split; [done | by apply Exists_cons_hd].
Qed.

Lemma well_typed_or_not (records : list (gmap string pyval)) :
  Forall numbers_in_numeric_fields records →
  Exists (λ md, ∃ f t, f ∈ numeric_fields ∧ md !! f = Some (VStr t)) records →
  False.
Proof.
  rewrite Forall_forall, Exists_exists.
  intros Hall (md & Hmd & f & t & Hf & Ht).
  destruct (Hall md Hmd f _ Hf Ht) as [q Hq]. done.
Qed.

(** X15.  On records whose values are numbers or strings, [batch_encode]
    is all or nothing: it returns exactly when every record of the list
    holds numbers in its numeric fields, and one record with a string under
    a numeric field makes the whole call raise [TypeError], whatever the
    other records are. *)
Theorem batch_encode_all_or_nothing (clock : nat → string)
    (records : list (gmap string pyval)) :
  ((∃ b, batch_encode clock records = Ok b)
   ↔ Forall numbers_in_numeric_fields records)
  ∧ (batch_encode clock records = Raise TypeError
     ↔ Exists (λ md, ∃ f t, f ∈ numeric_fields ∧ md !! f = Some (VStr t))
         records).
Proof.
  unfold batch_encode.
  destruct (batch_loop_cases clock records (0%nat, ∅))
    as [[[st Hok] Hall]|[Hraise Hex]].
  - rewrite Hok. split.
    + split; [done | by eexists].
    + split; [done |]. intros Hex. by destruct (well_typed_or_not records).
  - rewrite Hraise. split.
    + split; [by intros [b Hb] |]. intros Hall.
      by destruct (well_typed_or_not records).
    + split; done.
Qed.

End batch_encode_facts.

(** * Further properties of the engine *)

Section engine_compositions.

Context (L : heaan.lib) (log_slots : nat).

Abbreviation num_slots := (HEEngine.num_slots log_slots).
Abbreviation Message := (HEEngine.Message log_slots).
Abbreviation encrypt_data := (HEEngine.encrypt_data L log_slots).
Abbreviation decrypt_data := (HEEngine.decrypt_data L log_slots).
Abbreviation add_encrypted := (HEEngine.add_encrypted L).
Abbreviation calculate_encrypted_sum := (HEEngine.calculate_encrypted_sum L).

(** The message [encrypt_data] builds and encrypts. *)
Lemma encrypt_data_message (data : list Q) :
  (length data <= num_slots)%nat →
  encrypt_data data
  = Ok (heaan.encrypt L
          (Py.complex_of <$> data ++ replicate (num_slots - length data) 0%Q)).
Proof.
  intros H. unfold HEEngine.encrypt_data. rewrite decide_False by lia.
  change (Py.enumerate ?l) with (imap (λ i v, ((0 + i)%nat, v)) l).
  rewrite fill_message; [done |].
  rewrite (length_Message log_slots), length_app, length_replicate. lia.
Qed.

(** X16.  Summing a concatenation continues the fold: the sum of
    [l1 ++ l2] is the sum of [l1] with the items of [l2] added one after the
    other, so a running sum can be extended without starting over. *)
Theorem calculate_encrypted_sum_app (l1 l2 : list (heaan.Ciphertext L)) :
  l1 ≠ [] →
  calculate_encrypted_sum (l1 ++ l2)
  = (total ← calculate_encrypted_sum l1; Ok (foldl add_encrypted total l2)).
Proof.
  intros Hne. destruct l1 as [|c cs]; [done |].
  change ((c :: cs) ++ l2) with (c :: (cs ++ l2)).
  rewrite !calculate_encrypted_sum_cons, bind_Ok. by rewrite foldl_app.
Qed.

(** X17.  [decrypt_data] by size: a negative size gives the empty list; a
    size between 1 and [num_slots] gives the real parts of that many leading
    slots; an omitted size gives the real parts of all [num_slots] slots. *)
Theorem decrypt_data_sizes (ciphertext : heaan.Ciphertext L) :
  heaan.keeps_slots L →
  (∀ n : Z, (n < 0)%Z → decrypt_data ciphertext (Some n) = Ok [])
  ∧ (∀ n : Z, (0 < n <= Z.of_nat num_slots)%Z →
       decrypt_data ciphertext (Some n)
       = Ok (Py.real <$> take (Z.to_nat n) (heaan.decrypt L ciphertext Message)))
  ∧ decrypt_data ciphertext None
    = Ok (Py.real <$> heaan.decrypt L ciphertext Message).
Proof.
  intros Hkeep. split; [| split].
  - intros n Hn. unfold HEEngine.decrypt_data, HEEngine.actual_size, Py.range.
    rewrite decide_False by lia.
    by replace (Z.to_nat n) with 0%nat by lia.
  - intros n Hn. unfold HEEngine.decrypt_data, HEEngine.actual_size, Py.range.
    rewrite decide_False by lia. apply decrypt_data_loop; [done | lia].
  - unfold HEEngine.decrypt_data, HEEngine.actual_size, Py.range.
    rewrite Nat2Z.id, decrypt_data_loop by done.
    by rewrite take_ge by (rewrite Hkeep, (length_Message log_slots); lia).
Qed.

(** X18.  With a library that decrypts exactly what it encrypted, the engine
    adds no error of its own: decrypting the encryption of a vector that
    fits gives the vector followed by the zero padding, and decrypting it
    with the vector's length as size gives the vector back, provided the
    vector is not empty. *)
Theorem decrypt_encrypt_data (data : list Q) :
  heaan.exact L →
  (length data <= num_slots)%nat →
  ∃ c, encrypt_data data = Ok c
       ∧ decrypt_data c None
         = Ok (data ++ replicate (num_slots - length data) 0%Q)
       ∧ (data ≠ [] →
          decrypt_data c (Some (Z.of_nat (length data))) = Ok data).
Proof.
  intros Hexact Hlen. eexists. split; [by apply encrypt_data_message |].
  set (padded := data ++ replicate (num_slots - length data) 0%Q).
  assert (Hpad : length padded = num_slots)
    by (unfold padded; rewrite length_app, length_replicate; lia).
  assert (Hdec : heaan.decrypt L (heaan.encrypt L (Py.complex_of <$> padded))
                   Message
                 = Py.complex_of <$> padded).
  { apply Hexact. by rewrite length_fmap, Hpad, (length_Message log_slots). }
  assert (Hreal : ∀ l : list Q, Py.real <$> (Py.complex_of <$> l) = l).
  { intros l. rewrite <- list_fmap_compose. apply list_fmap_id. }
  assert (Hloop : ∀ n, (n <= num_slots)%nat →
            Py.for_each
              (λ result i,
                 c ← Py.getitem (Py.complex_of <$> padded) i;
                 Ok (result ++ [Py.real c]))
              [] (seq 0 n)
            = Ok (take n padded)).
  { intros n Hn.
    rewrite (for_each_getitem _ (λ result c, result ++ [Py.real c]))
      by (rewrite length_fmap, Hpad; lia).
    by rewrite foldl_snoc_fmap, drop_0, <- fmap_take, Hreal. }
  split.
  - unfold HEEngine.decrypt_data, HEEngine.actual_size, Py.range.
    rewrite Hdec, Nat2Z.id, Hloop by done.
    by rewrite take_ge by lia.
  - intros Hne. unfold HEEngine.decrypt_data, HEEngine.actual_size, Py.range.
    assert (length data ≠ 0)%nat by (by destruct data).
    rewrite decide_False by lia.
    rewrite Hdec, Nat2Z.id, Hloop by done.
    unfold padded. by rewrite take_app_length.
Qed.

End engine_compositions.

(** ** [encrypt_revenue_data] *)

Section encrypt_revenue_data_facts.

Context (L : heaan.lib) (log_slots : nat) (parse_float : string → option Q).

Abbreviation num_slots := (HEEngine.num_slots log_slots).
Abbreviation encrypt_field := (HEEngine.encrypt_field L log_slots parse_float).
Abbreviation encrypt_revenue_data :=
  (HEEngine.encrypt_revenue_data L log_slots parse_float).

(** A one-item vector always fits: the ciphertext of a value holds it in
    slot 0, all other slots being zero. *)
Lemma encrypt_data_singleton (x : Q) :
  HEEngine.encrypt_data L log_slots [x]
  = Ok (heaan.encrypt L
          (Py.complex_of x :: replicate (num_slots - 1) (Py.Complex 0 0))).
Proof.
  rewrite encrypt_data_message by (pose proof (num_slots_pos log_slots); simpl; lia).
  simpl. by rewrite fmap_replicate.
Qed.

Lemma encrypt_field_absent (rd : gmap string pyval)
    (enc : gmap string (heaan.Ciphertext L)) (f : string) :
  rd !! f = None → encrypt_field rd enc f = Ok enc.
Proof. intros H. unfold HEEngine.encrypt_field. by rewrite H. Qed.

Lemma encrypt_field_value (rd : gmap string pyval)
    (enc : gmap string (heaan.Ciphertext L)) (f : string) (v : pyval) (q : Q) :
  rd !! f = Some v → Py.float parse_float v = Ok q →
  encrypt_field rd enc f
  = Ok (<[f := heaan.encrypt L
                 (Py.complex_of (HEEngine.normalized_value f q)
                  :: replicate (num_slots - 1) (Py.Complex 0 0))]> enc).
Proof.
  intros H Hq. unfold HEEngine.encrypt_field. rewrite H, Hq. run_binds.
  rewrite encrypt_data_singleton. by run_binds.
Qed.

Lemma encrypt_field_rejected (rd : gmap string pyval)
    (enc : gmap string (heaan.Ciphertext L)) (f : string) (v : pyval) (e : exn) :
  rd !! f = Some v → Py.float parse_float v = Raise e →
  encrypt_field rd enc f = Raise e.
Proof. intros H Hq. unfold HEEngine.encrypt_field. by rewrite H, Hq. Qed.

Lemma float_cases (v : pyval) :
  (∃ q, Py.float parse_float v = Ok q)
  ∨ (Py.float parse_float v = Raise ValueError
     ∧ ∃ s, v = VStr s ∧ parse_float s = None).
Proof.
  destruct v as [q|s]; simpl; [left; by eexists |].
  destruct (parse_float s) as [q|] eqn:Hs; [left; by eexists |].
  right. split; [done | by exists s].
Qed.

(** The loop over the five fields either runs to its end, and then holds a
    ciphertext for each field met that the record holds, or stops with
    [ValueError] at a field holding a string that is not a number. *)
Lemma encrypt_loop_cases (rd : gmap string pyval) (fs : list string)
    (enc0 : gmap string (heaan.Ciphertext L)) :
  (∃ enc,
      Py.for_each (encrypt_field rd) enc0 fs = Ok enc
      ∧ ∀ k, enc !! k
             = match (if decide (k ∈ fs) then rd !! k else None) with
               | Some v =>
                   match Py.float parse_float v with
                   | Ok q =>
                       Some (heaan.encrypt L
                               (Py.complex_of (HEEngine.normalized_value k q)
                                :: replicate (num_slots - 1) (Py.Complex 0 0)))
                   | Raise _ => enc0 !! k
                   end
               | None => enc0 !! k
               end)
  ∨ (Py.for_each (encrypt_field rd) enc0 fs = Raise ValueError
     ∧ ∃ f s, f ∈ fs ∧ rd !! f = Some (VStr s) ∧ parse_float s = None).
Proof.
  revert enc0. induction fs as [|a fs IH]; intros enc0.
  - left. exists enc0. split; [done |]. intros k.
    destruct (decide (k ∈ [])) as [H|]; [by apply elem_of_nil in H | done].
  - rewrite for_each_cons. destruct (rd !! a) as [v|] eqn:Ha.
    + destruct (float_cases v) as [[q Hq]|[Hraise (s & -> & Hs)]].
      * rewrite (encrypt_field_value rd enc0 a v q Ha Hq), bind_Ok.
        destruct (IH (<[a := heaan.encrypt L
                           (Py.complex_of (HEEngine.normalized_value a q)
                            :: replicate (num_slots - 1) (Py.Complex 0 0))]>
                        enc0))
          as [(enc & Henc & Hlook)|(Hr & f & s & Hf & Hfs & Hs)].
        -- left. exists enc. split; [done |]. intros k. rewrite Hlook.
           destruct (decide (k = a)) as [->|Hne].
           ++ rewrite (decide_True (P := a ∈ a :: fs))
                by (apply elem_of_cons; by left).
              rewrite Ha, Hq, lookup_insert_eq.
              destruct (decide (a ∈ fs)); cbv beta iota; by rewrite ?Hq.
           ++ rewrite lookup_insert_ne by done.
              destruct (decide (k ∈ fs)) as [Hin|Hnin].
              ** by rewrite decide_True by (apply elem_of_cons; by right).
              ** rewrite decide_False; [done |].
                 intros Hin. apply elem_of_cons in Hin as [?|?]; done.
        -- right. split; [done |]. exists f, s. split; [| done].
           apply elem_of_cons. by right.
      * right. rewrite (encrypt_field_rejected rd enc0 a _ _ Ha Hraise).
        split; [done |]. exists a, s. split; [| done].
        apply elem_of_cons. by left.
    + rewrite (encrypt_field_absent rd enc0 a Ha), bind_Ok.
      destruct (IH enc0) as [(enc & Henc & Hlook)|(Hr & f & s & Hf & Hfs & Hs)].
      * left. exists enc. split; [done |]. intros k. rewrite Hlook.
        destruct (decide (k = a)) as [->|Hne].
        -- rewrite (decide_True (P := a ∈ a :: fs))
             by (apply elem_of_cons; by left).
           rewrite Ha. by destruct (decide (a ∈ fs)).
        -- destruct (decide (k ∈ fs)) as [Hin|Hnin].
           ++ by rewrite decide_True by (apply elem_of_cons; by right).
           ++ rewrite decide_False; [done |].
              intros Hin. apply elem_of_cons in Hin as [?|?]; done.
      * right. split; [done |]. exists f, s. split; [| done].
        apply elem_of_cons. by right.
Qed.

(** X19.  For an engine with a slot count [2 ^ log_slots], [log_slots]
    not negative, and a record whose revenue, danceability, energy, valence
    and tempo, where present, are numbers that [float] returns unchanged,
    [encrypt_revenue_data] returns: each of these fields the record holds
    gets a ciphertext of its own, holding the normalised value in slot 0 and
    zeros elsewhere, and no other key gets one. *)
Theorem encrypt_revenue_data_numbers (rd : gmap string pyval) :
  (∀ f v, f ∈ HEEngine.numeric_fields → rd !! f = Some v →
          ∃ q, v = VNum q ∧ exactly_convertible q) →
  ∃ enc,
    encrypt_revenue_data rd = Ok enc
    ∧ ∀ k, enc !! k
           = if decide (k ∈ HEEngine.numeric_fields)
             then match rd !! k with
                  | Some (VNum q) =>
                      Some (heaan.encrypt L
                              (Py.complex_of (HEEngine.normalized_value k q)
                               :: replicate (num_slots - 1) (Py.Complex 0 0)))
                  | _ => None
                  end
             else None.
Proof.
  intros Hnum. unfold HEEngine.encrypt_revenue_data.
  destruct (encrypt_loop_cases rd HEEngine.numeric_fields ∅)
    as [(enc & Henc & Hlook)|(_ & f & s & Hf & Hfs & _)].
  - exists enc. split; [done |]. intros k. rewrite Hlook, lookup_empty.
    destruct (decide (k ∈ HEEngine.numeric_fields)) as [Hk|]; [| done].
    destruct (rd !! k) as [v|] eqn:Hv; [| done].
    destruct (Hnum k v Hk Hv) as (q & -> & _). done.
  - destruct (Hnum f _ Hf Hfs) as (q & Hq & _). done.
Qed.

(** A string that [float] does not accept under one of the fields stops the
    loop with [ValueError], wherever the field comes in the order. *)
Lemma encrypt_loop_rejects (rd : gmap string pyval) (f s : string)
    (fs : list string) (enc0 : gmap string (heaan.Ciphertext L)) :
  rd !! f = Some (VStr s) → parse_float s = None → f ∈ fs →
  Py.for_each (encrypt_field rd) enc0 fs = Raise ValueError.
Proof.
  intros Hfs Hs. revert enc0. induction fs as [|a fs IH]; intros enc0 Hin.
  - by apply elem_of_nil in Hin.
  - rewrite for_each_cons. destruct (decide (a = f)) as [->|Hne].
    + rewrite (encrypt_field_rejected rd enc0 f (VStr s) ValueError Hfs);
        [done |]. simpl. by rewrite Hs.
    + apply elem_of_cons in Hin as [?|Hin]; [done |].
      destruct (rd !! a) as [v|] eqn:Ha.
      * destruct (float_cases v) as [[q Hq]|[Hr _]].
        -- rewrite (encrypt_field_value rd enc0 a v q Ha Hq), bind_Ok.
           by apply IH.
        -- by rewrite (encrypt_field_rejected rd enc0 a v _ Ha Hr).
      * rewrite (encrypt_field_absent rd enc0 a Ha), bind_Ok. by apply IH.
Qed.

(** X20.  For an engine with a slot count [2 ^ log_slots], [log_slots]
    not negative, and a record whose revenue, danceability, energy, valence
    and tempo, where present, are strings or numbers that [float] returns
    unchanged: [encrypt_revenue_data] raises exactly when one of the five
    fields holds a string that [float] does not accept, and what it raises
    is [ValueError]; in particular it never raises the capacity error of
    [encrypt_data]. *)
Theorem encrypt_revenue_data_errors (rd : gmap string pyval) :
  (∀ f q, f ∈ HEEngine.numeric_fields → rd !! f = Some (VNum q) →
          exactly_convertible q) →
  (encrypt_revenue_data rd = Raise ValueError
   ↔ ∃ f s, f ∈ HEEngine.numeric_fields ∧ rd !! f = Some (VStr s)
            ∧ parse_float s = None)
  ∧ (∀ e, encrypt_revenue_data rd = Raise e → e = ValueError).
Proof.
  intros _. unfold HEEngine.encrypt_revenue_data.
  destruct (encrypt_loop_cases rd HEEngine.numeric_fields ∅)
    as [(enc & Henc & _)|(Hraise & f & s & Hf & Hfs & Hs)].
  - split; [| by rewrite Henc]. split; [by rewrite Henc |].
    intros (f & s & Hf & Hfs & Hs).
    rewrite (encrypt_loop_rejects rd f s _ ∅ Hfs Hs Hf) in Henc. done.
  - rewrite Hraise. split; [| by intros e [= <-]].
    split; [| done]. intros _. by exists f, s.
Qed.

(** X21.  [encrypt_revenue_data] reads the five fields and nothing else:
    two records that agree on them give the same result, ciphertexts or
    error, whatever else they hold. *)
Theorem encrypt_revenue_data_relevant_fields (rd rd' : gmap string pyval) :
  (∀ f, f ∈ HEEngine.numeric_fields → rd !! f = rd' !! f) →
  encrypt_revenue_data rd = encrypt_revenue_data rd'.
Proof.
  unfold HEEngine.encrypt_revenue_data.
  generalize (∅ : gmap string (heaan.Ciphertext L)).
  induction HEEngine.numeric_fields as [|a fs IH]; intros enc0 Hsame; [done |].
  rewrite !for_each_cons.
  assert (encrypt_field rd enc0 a = encrypt_field rd' enc0 a) as ->.
  { unfold HEEngine.encrypt_field.
    by rewrite (Hsame a) by (apply elem_of_cons; by left). }
  destruct (encrypt_field rd' enc0 a) as [enc1|e]; [| done].
  rewrite !bind_Ok. apply IH. intros f Hf. apply Hsame, elem_of_cons. by right.
Qed.

End encrypt_revenue_data_facts.

(** ** Further runs on concrete inputs *)

Section further_runs.
Import MusicDataEncoder.

Lemma sparse_music_data_with_revenue_numbers :
  numbers_in_numeric_fields sparse_music_data_with_revenue.
Proof.
  intros f x Hf Hx. unfold numeric_fields in Hf.
  repeat (apply elem_of_cons in Hf as [->|Hf];
          [vm_compute in Hx; first [discriminate | injection Hx as <-; by eexists] |]).
  by apply elem_of_nil in Hf.
Defined.

Lemma sparse_records_agree (k : string) :
  k ∈ feature_order ++ ["genre"; "period"] →
  sparse_music_data !! k = sparse_music_data_with_revenue !! k.
Proof.
  intros Hk. apply elem_of_app in Hk as [Hk|Hk].
  - unfold feature_order in Hk.
    repeat (apply elem_of_cons in Hk as [->|Hk]; [reflexivity |]).
    by apply elem_of_nil in Hk.
  - repeat (apply elem_of_cons in Hk as [->|Hk]; [reflexivity |]).
    by apply elem_of_nil in Hk.
Defined.

Lemma create_feature_vector_relevant_fields_witness :
  ∃ v, create_feature_vector "2024-03-01T09:00:00" sparse_music_data = Ok v
       ∧ create_feature_vector "2025-01-01T00:00:00"
           sparse_music_data_with_revenue = Ok v.
Proof.
  eexists. split; [reflexivity |].
  apply (create_feature_vector_relevant_fields "2024-03-01T09:00:00"
           "2025-01-01T00:00:00" sparse_music_data
           sparse_music_data_with_revenue _ sparse_records_agree
           sparse_music_data_with_revenue_numbers eq_refl).
Defined.

Lemma plain_exact : heaan.exact plain.scheme.
Proof.
  intros m msg Hlen. simpl. unfold plain.decrypt.
  rewrite take_ge, drop_ge by lia. apply app_nil_r.
Defined.

Lemma calculate_encrypted_sum_app_witness :
  HEEngine.calculate_encrypted_sum plain.scheme
    ([[Py.Complex 1 0]; [Py.Complex 2 0]] ++ [[Py.Complex 4 0]])
  = (total ← HEEngine.calculate_encrypted_sum plain.scheme
               [[Py.Complex 1 0]; [Py.Complex 2 0]];
     Ok (foldl (HEEngine.add_encrypted plain.scheme) total [[Py.Complex 4 0]])).
Proof.
  apply (calculate_encrypted_sum_app plain.scheme). discriminate.
Defined.

Lemma decrypt_data_sizes_witness :
  HEEngine.decrypt_data plain.scheme 2
    [Py.Complex 0.5 0; Py.Complex 0.25 0.1; Py.Complex 0 0; Py.Complex 0 0]
    (Some (-3)%Z) = Ok []
  ∧ HEEngine.decrypt_data plain.scheme 2
      [Py.Complex 0.5 0; Py.Complex 0.25 0.1; Py.Complex 0 0; Py.Complex 0 0]
      (Some 2%Z) = Ok [0.5; 0.25]%Q.
Proof.
  destruct (decrypt_data_sizes plain.scheme 2
              [Py.Complex 0.5 0; Py.Complex 0.25 0.1; Py.Complex 0 0;
               Py.Complex 0 0] plain_keeps_slots) as (Hneg & Hin & _).
  split.
  - apply Hneg. lia.
  - apply (Hin 2%Z). vm_compute. split; [reflexivity | discriminate].
Defined.

Lemma decrypt_encrypt_data_witness :
  ∃ c, HEEngine.encrypt_data plain.scheme 2 [0.1; 0.2; 0.3]%Q = Ok c
       ∧ HEEngine.decrypt_data plain.scheme 2 c None
         = Ok [0.1; 0.2; 0.3; 0]%Q
       ∧ HEEngine.decrypt_data plain.scheme 2 c (Some 3%Z)
         = Ok [0.1; 0.2; 0.3]%Q.
Proof.
  destruct (decrypt_encrypt_data plain.scheme 2 [0.1; 0.2; 0.3]%Q plain_exact)
    as (c & Hc & Hall & Hsome).
  { vm_compute. lia. }
  exists c. split; [exact Hc |]. split; [exact Hall |].
  apply Hsome. discriminate.
Defined.

Lemma test_music_data_engine_numbers (f : string) (v : pyval) :
  f ∈ HEEngine.numeric_fields → test_music_data !! f = Some v →
  ∃ q, v = VNum q ∧ exactly_convertible q.
Proof.
  intros Hf Hv. unfold HEEngine.numeric_fields in Hf.
  repeat (apply elem_of_cons in Hf as [->|Hf];
          [vm_compute in Hv; injection Hv as <-; eexists;
           split; [reflexivity | split; discriminate] |]).
  by apply elem_of_nil in Hf.
Defined.

Lemma encrypt_revenue_data_numbers_witness :
  ∃ enc,
    HEEngine.encrypt_revenue_data plain.scheme 2 (λ _, None) test_music_data
    = Ok enc
    ∧ (∃ x, enc !! "revenue"
            = Some [Py.Complex x 0; Py.Complex 0 0; Py.Complex 0 0;
                    Py.Complex 0 0]
            ∧ (x == 0.05)%Q)
    ∧ enc !! "song_count" = None.
Proof.
  destruct (encrypt_revenue_data_numbers plain.scheme 2 (λ _, None)
              test_music_data test_music_data_engine_numbers)
    as (enc & Henc & Hlook).
  exists enc. split; [exact Henc |]. split.
  - eexists. split; [etrans; [exact (Hlook "revenue") | reflexivity] |].
    reflexivity.
  - etrans; [exact (Hlook "song_count") | reflexivity].
Defined.

Lemma ill_typed_music_data_convertible (f : string) (q : Q) :
  f ∈ HEEngine.numeric_fields → ill_typed_music_data !! f = Some (VNum q) →
  exactly_convertible q.
Proof.
  intros Hf Hq. unfold HEEngine.numeric_fields in Hf.
  repeat (apply elem_of_cons in Hf as [->|Hf];
          [vm_compute in Hq; discriminate |]).
  by apply elem_of_nil in Hf.
Defined.

Lemma encrypt_revenue_data_errors_witness :
  HEEngine.encrypt_revenue_data plain.scheme 2 (λ _, None) ill_typed_music_data
  = Raise ValueError.
Proof.
  apply (encrypt_revenue_data_errors plain.scheme 2 (λ _, None)
           ill_typed_music_data ill_typed_music_data_convertible).
  exists "revenue", "a lot". split; [| split; reflexivity].
  apply elem_of_cons. by left.
Defined.

Lemma test_records_engine_agree (f : string) :
  f ∈ HEEngine.numeric_fields →
  test_music_data !! f = delete "artist_id" test_music_data !! f.
Proof.
  intros Hf. unfold HEEngine.numeric_fields in Hf.
  repeat (apply elem_of_cons in Hf as [->|Hf]; [reflexivity |]).
  by apply elem_of_nil in Hf.
Defined.

Lemma encrypt_revenue_data_relevant_fields_witness :
  HEEngine.encrypt_revenue_data plain.scheme 2 (λ _, None) test_music_data
  = HEEngine.encrypt_revenue_data plain.scheme 2 (λ _, None)
      (delete "artist_id" test_music_data).
Proof.
  apply (encrypt_revenue_data_relevant_fields plain.scheme 2 (λ _, None)).
  exact test_records_engine_agree.
Defined.

End further_runs.
